(** * Sharding and unsharding in [rdb_protocol/protocol.cc]

    A shallow embedding of the region projections ([get_region], [shard]),
    the two read mergers ([unshard_visitor_t], [multistore_unshard_visitor_t]),
    the write merger and [cpu_sharding_subspace], followed by the properties
    the specification states about them.

    Conventions of the embedding:
    - a [uint64_t] is a [Z] reduced modulo [2^64]; an [int] or [int64_t] is a
      [Z] wrapped into the signed range of its width;
    - a [boost::variant] is an inductive type, [boost::get<T>(&v)] is a
      projection into [option] ([None] is the null pointer);
    - [rassert], [guarantee] and the dereference of a null pointer end the
      computation with [Crash]; a C++ exception of type [runtime_exc_t] is
      [Throw]; normal completion is [Ok].  [rassert] is checked, as in a
      debug build: where a call returns [Ok] here, the release build, which
      compiles [rassert] out, runs the same statements to the same result. *)

From Stdlib Require Import ZArith List String Ascii Bool Lia.
From Stdlib Require Import Floats.SpecFloat.
Import ListNotations.
Local Open Scope Z_scope.

(** ** Machine integers *)

Definition uint64 (z : Z) : Z := z mod 2 ^ 64.

Definition wrap_signed (w z : Z) : Z :=
  (z + 2 ^ (w - 1)) mod 2 ^ w - 2 ^ (w - 1).

Definition int64 (z : Z) : Z := wrap_signed 64 z.
Definition int32 (z : Z) : Z := wrap_signed 32 z.

Definition INT_MIN : Z := - 2 ^ 31.
Definition INT_MAX : Z := 2 ^ 31 - 1.

Definition is_int (z : Z) : Prop := INT_MIN <= z <= INT_MAX.

(** ** Outcomes of a call *)

(** Modelled from the spec: [query_language::runtime_exc_t],
    "RuntimeError{message, backtrace}". *)
Record runtime_exc_t := {
  message : string;
  backtrace : list string
}.

Inductive outcome (A : Type) : Type :=
| Ok (a : A)
| Throw (e : runtime_exc_t)
| Crash.

Arguments Ok {A} a.
Arguments Throw {A} e.
Arguments Crash {A}.

Definition bind {A B : Type} (m : outcome A) (k : A -> outcome B) : outcome B :=
  match m with
  | Ok a => k a
  | Throw e => Throw e
  | Crash => Crash
  end.

Notation "x <- m ;; k" := (bind m (fun x => k))
  (at level 61, m at next level, right associativity).
Notation "m ;;; k" := (bind m (fun _ => k))
  (at level 61, right associativity).

(** [rassert(c)] and [guarantee(c)]. *)
Definition rassert (c : bool) : outcome unit := if c then Ok tt else Crash.
Definition guarantee (c : bool) : outcome unit := if c then Ok tt else Crash.

(** Dereference of a pointer obtained from [boost::get]. *)
Definition deref {A : Type} (p : option A) : outcome A :=
  match p with
  | Some a => Ok a
  | None => Crash
  end.

(** A [for] loop over a vector that threads an accumulator and stops at the
    first iteration that throws or crashes. *)
Fixpoint for_each {A S : Type} (body : S -> A -> outcome S) (l : list A) (s : S)
  : outcome S :=
  match l with
  | [] => Ok s
  | a :: l' => s' <- body s a ;; for_each body l' s'
  end.

(** ** Keys, key ranges and regions *)

(** Modelled from the spec: [store_key_t] of btree/keys.hpp is a byte string
    ("byte-string keys"); its comparison operators order keys
    lexicographically by unsigned byte, a proper prefix first. *)
Definition store_key_t : Type := string.

Definition key_lt (a b : store_key_t) : bool := String.ltb a b.
Definition key_le (a b : store_key_t) : bool := String.leb a b.
Definition key_eq (a b : store_key_t) : bool := String.eqb a b.

(** Modelled from the spec: [key_range_t] of btree/keys.hpp, "a half-open or
    closed interval over byte-string keys".  The source reads the field [left];
    the right end is unbounded, open or closed. *)
Inductive right_bound_t : Type :=
| right_unbounded
| right_open (k : store_key_t)
| right_closed (k : store_key_t).

Record key_range_t := {
  kr_left : store_key_t;
  kr_right : right_bound_t
}.

(** Modelled from the spec: the constructor
    [key_range_t(key_range_t::closed, l, key_range_t::closed, r)], a range
    "closed on both ends". *)
Definition key_range_closed (l r : store_key_t) : key_range_t :=
  {| kr_left := l; kr_right := right_closed r |}.

(** Modelled from the spec: [key_range_t::universe()], "the universal key
    range": every key from the empty one on. *)
Definition key_range_universe : key_range_t :=
  {| kr_left := EmptyString; kr_right := right_unbounded |}.

Definition right_bound_eqb (a b : right_bound_t) : bool :=
  match a, b with
  | right_unbounded, right_unbounded => true
  | right_open k, right_open k' => key_eq k k'
  | right_closed k, right_closed k' => key_eq k k'
  | _, _ => false
  end.

Definition key_range_eqb (a b : key_range_t) : bool :=
  key_eq (kr_left a) (kr_left b) && right_bound_eqb (kr_right a) (kr_right b).

(** [hash_region_t<key_range_t>]: the hash interval [[beg, end_)] and the key
    range [inner]. *)
Record region_t := {
  beg : Z;
  end_ : Z;
  inner : key_range_t
}.

(** Modelled from the spec: [operator==] of hash_region.hpp, "two regions are
    equal iff both components are equal". *)
Definition region_eqb (a b : region_t) : bool :=
  (beg a =? beg b) && (end_ a =? end_ b) && key_range_eqb (inner a) (inner b).

(** [beg <= h && h < end], as [range_key_tester_t] tests a hash. *)
Definition hash_in_region (h : Z) (r : region_t) : bool :=
  (beg r <=? h) && (h <? end_ r).

(** ** What the file takes from elsewhere

    Constants, functions and types of headers that are not part of the
    sources, and the query language. *)
Class Externals : Type := {
  (** [HASH_REGION_HASH_SIZE], a [uint64_t] constant. *)
  HASH_REGION_HASH_SIZE : Z;
  (** [hash_region_hasher(contents, size)], a [uint64_t]. *)
  hash_region_hasher : store_key_t -> Z;
  (** [region_is_superset(potential_superset, potential_subset)]. *)
  region_is_superset : region_t -> region_t -> bool;
  (** [key_range_t::last_key_in_range()]. *)
  last_key_in_range : key_range_t -> store_key_t;
  (** Protocol-buffer messages of the query language. *)
  Term : Type;
  Mapping : Type;
  WriteQuery_ForEach : Type;
  transform_t : Type;
  (** [boost::shared_ptr<scoped_cJSON_t>] and the null pointer. *)
  json_t : Type;
  null_json : json_t;
  (** The scopes of a [runtime_environment_t], and the context. *)
  scopes_t : Type;
  context_t : Type;
  (** [eval] returns a value or throws; [new_val_scope_t] opens a value
      scope when it is constructed and leaves it when it is destroyed. *)
  eval : Term -> scopes_t -> outcome json_t;
  new_val_scope : scopes_t -> scopes_t;
  put_in_scope : string -> json_t -> scopes_t -> scopes_t;
  pop_val_scope : scopes_t -> scopes_t;
  (** [shared_scoped_less_t], the order of the keys of a [groups_t]. *)
  json_less : json_t -> json_t -> bool;
  (** The responses of the three writes, "a small variant-specific status"
      each; their declarations are in protocol.hpp. *)
  point_write_response_t : Type;
  point_modify_response_t : Type;
  point_delete_response_t : Type
}.

Section Protocol.

Context {ext : Externals}.

(** [region_t(const key_range_t &)]: the whole hash universe over a range. *)
Definition region_of_key_range (kr : key_range_t) : region_t :=
  {| beg := 0; end_ := HASH_REGION_HASH_SIZE; inner := kr |}.

(** [rdb_protocol_t::monokey_region]. *)
Definition monokey_region (k : store_key_t) : region_t :=
  let h := uint64 (hash_region_hasher k) in
  {| beg := h; end_ := uint64 (h + 1); inner := key_range_closed k k |}.

(** ** Reads *)

(** Modelled from the spec: the reads of protocol.hpp, "PointRead{key}",
    "RangeRead{key_range, maximum, transforms[], terminal?, scopes}" and
    "DistributionRead{key_range, max_depth}", with the field names this file
    uses; [Reduction] and [Builtin_GroupedMapReduce] are protocol-buffer
    messages read through [base()], [var1()], [var2()], [body()] and
    [reduction()]. *)
Record point_read_t := { pr_key : store_key_t }.

Record Reduction := {
  base : Term;
  var1 : string;
  var2 : string;
  body : Term
}.

Record Builtin_GroupedMapReduce := {
  group_mapping : Mapping;
  value_mapping : Mapping;
  reduction : Reduction
}.

(** The variant held by [rget_read_t::terminal]. *)
Inductive terminal_variant_t : Type :=
| terminal_gmr (gmr : Builtin_GroupedMapReduce)
| terminal_reduction (r : Reduction)
| terminal_length
| terminal_for_each (fe : WriteQuery_ForEach).

Record rget_read_t := {
  key_range : key_range_t;
  maximum : N;
  transform : transform_t;
  terminal : option terminal_variant_t;
  scopes : scopes_t
}.

Record distribution_read_t := {
  max_depth : Z;
  range : key_range_t
}.

Inductive read_t : Type :=
| read_point (pr : point_read_t)
| read_rget (rg : rget_read_t)
| read_distribution (dg : distribution_read_t).

(** [r_get_region_visitor] and [read_t::get_region]. *)
Definition get_region (r : read_t) : region_t :=
  match r with
  | read_point pr => monokey_region (pr_key pr)
  | read_rget rg => region_of_key_range (key_range rg)
  | read_distribution dg => region_of_key_range (range dg)
  end.

(** [r_shard_visitor] and [read_t::shard]. *)
Definition shard (r : read_t) (region : region_t) : outcome read_t :=
  match r with
  | read_point pr =>
      rassert (region_eqb (monokey_region (pr_key pr)) region) ;;;
      Ok (read_point pr)
  | read_rget rg =>
      rassert (region_is_superset (region_of_key_range (key_range rg)) region) ;;;
      Ok (read_rget {| key_range := inner region;
                       maximum := maximum rg;
                       transform := transform rg;
                       terminal := terminal rg;
                       scopes := scopes rg |})
  | read_distribution dg =>
      rassert (region_is_superset (region_of_key_range (range dg)) region) ;;;
      Ok (read_distribution {| max_depth := max_depth dg; range := inner region |})
  end.

(** ** [cpu_sharding_subspace] *)

Definition cpu_sharding_subspace (subregion_number num_cpu_shards : Z)
  : outcome region_t :=
  rassert (subregion_number >=? 0) ;;;
  rassert (subregion_number <? num_cpu_shards) ;;;
  let width := HASH_REGION_HASH_SIZE / uint64 num_cpu_shards in
  let beg := uint64 (width * uint64 subregion_number) in
  let end_ := if int32 (subregion_number + 1) =? num_cpu_shards
              then HASH_REGION_HASH_SIZE
              else uint64 (beg + width) in
  Ok {| beg := beg; end_ := end_; inner := key_range_universe |}.

(** ** Read responses *)

(** Modelled from the spec: the responses of protocol.hpp,
    "PointReadResponse{value?}", "DistributionReadResponse{key_counts:
    ordered_map<key, int>}" and "RangeReadResponse{result, truncated,
    key_range, last_considered_key}", where "result is a tagged union over
    Stream, Groups, Atom, Length{n}, Inserted{n}, or RuntimeError"; the
    alternatives are the six types this file names [stream_t], [groups_t],
    [atom_t], [length_t], [inserted_t] and [runtime_exc_t]. *)
Record point_read_response_t := { data : json_t }.

Definition stream_t : Type := list (store_key_t * json_t).

(** [std::map<json, json, shared_scoped_less_t>], kept as the list of its
    entries in iteration order. *)
Definition groups_t : Type := list (json_t * json_t).

Definition atom_t : Type := json_t.

Record length_t := { l_length : Z }.
Record inserted_t := { i_inserted : Z }.

(** [rget_read_response_t::result_t]. *)
Inductive result_t : Type :=
| result_stream (s : stream_t)
| result_groups (g : groups_t)
| result_atom (a : atom_t)
| result_length (l : length_t)
| result_inserted (i : inserted_t)
| result_exc (e : runtime_exc_t).

Record rget_read_response_t := {
  result : result_t;
  truncated : bool;
  rr_key_range : key_range_t;
  last_considered_key : store_key_t
}.

(** [std::map<store_key_t, int>], kept as the list of its entries in
    iteration order (increasing keys). *)
Definition key_counts_t : Type := list (store_key_t * Z).

Record distribution_read_response_t := { key_counts : key_counts_t }.

Inductive read_response_t : Type :=
| response_point (p : point_read_response_t)
| response_rget (rr : rget_read_response_t)
| response_distribution (d : distribution_read_response_t).

(** [boost::get<T>(&variant)]: [None] is the null pointer. *)
Definition get_point_read_response (r : read_response_t) : option point_read_response_t :=
  match r with response_point p => Some p | _ => None end.
Definition get_rget_read_response (r : read_response_t) : option rget_read_response_t :=
  match r with response_rget rr => Some rr | _ => None end.
Definition get_distribution_read_response (r : read_response_t)
  : option distribution_read_response_t :=
  match r with response_distribution d => Some d | _ => None end.

Definition get_stream (r : result_t) : option stream_t :=
  match r with result_stream s => Some s | _ => None end.
Definition get_groups (r : result_t) : option groups_t :=
  match r with result_groups g => Some g | _ => None end.
Definition get_atom (r : result_t) : option atom_t :=
  match r with result_atom a => Some a | _ => None end.
Definition get_length (r : result_t) : option length_t :=
  match r with result_length l => Some l | _ => None end.
Definition get_inserted (r : result_t) : option inserted_t :=
  match r with result_inserted i => Some i | _ => None end.
Definition get_runtime_exc (r : result_t) : option runtime_exc_t :=
  match r with result_exc e => Some e | _ => None end.

Definition is_some {A : Type} (o : option A) : bool :=
  match o with Some _ => true | None => false end.

Definition set_result (rr : rget_read_response_t) (r : result_t) : rget_read_response_t :=
  {| result := r; truncated := truncated rr;
     rr_key_range := rr_key_range rr;
     last_considered_key := last_considered_key rr |}.

Definition set_truncated (rr : rget_read_response_t) (t : bool) : rget_read_response_t :=
  {| result := result rr; truncated := t;
     rr_key_range := rr_key_range rr;
     last_considered_key := last_considered_key rr |}.

Definition set_last_considered_key (rr : rget_read_response_t) (k : store_key_t)
  : rget_read_response_t :=
  {| result := result rr; truncated := truncated rr;
     rr_key_range := rr_key_range rr;
     last_considered_key := k |}.

(** [try { body } catch (const runtime_exc_t &e) { handler }]. *)
Definition try_catch {A : Type} (m : outcome A) (handler : runtime_exc_t -> outcome A)
  : outcome A :=
  match m with
  | Throw e => handler e
  | other => other
  end.

(** *** Maps *)

(** Lookup and [operator[]] assignment in a [groups_t]; two keys are the same
    key when neither is less than the other. *)
Fixpoint groups_find (k : json_t) (g : groups_t) : option json_t :=
  match g with
  | [] => None
  | (k', v') :: g' =>
      if json_less k k' then None
      else if json_less k' k then groups_find k g'
      else Some v'
  end.

Fixpoint groups_assign (k v : json_t) (g : groups_t) : groups_t :=
  match g with
  | [] => [(k, v)]
  | (k', v') :: g' =>
      if json_less k k' then (k, v) :: (k', v') :: g'
      else if json_less k' k then (k', v') :: groups_assign k v g'
      else (k', v) :: g'
  end.

(** [get_with_default(map, key, default)]. *)
Definition get_with_default (g : groups_t) (k : json_t) (default : json_t) : json_t :=
  match groups_find k g with
  | Some v => v
  | None => default
  end.

(** [std_contains] and single-element [insert] on a [std::map<store_key_t, int>]
    ([insert] leaves an existing entry as it is). *)
Fixpoint std_contains (m : key_counts_t) (k : store_key_t) : bool :=
  match m with
  | [] => false
  | (k', _) :: m' =>
      if key_lt k k' then false
      else if key_lt k' k then std_contains m' k
      else true
  end.

Fixpoint map_insert (k : store_key_t) (v : Z) (m : key_counts_t) : key_counts_t :=
  match m with
  | [] => [(k, v)]
  | (k', v') :: m' =>
      if key_lt k k' then (k, v) :: (k', v') :: m'
      else if key_lt k' k then (k', v') :: map_insert k v m'
      else (k', v') :: m'
  end.

(** [m.insert(first, last)]. *)
Definition map_insert_range (m : key_counts_t) (piece : key_counts_t) : key_counts_t :=
  fold_left (fun acc kv => map_insert (fst kv) (snd kv) acc) piece m.

(** [m.begin()->first]; on an empty map there is no element to read. *)
Definition begin_first (m : key_counts_t) : outcome store_key_t :=
  match m with
  | (k, _) :: _ => Ok k
  | [] => Crash
  end.

(** [m.size()], a [size_t]. *)
Definition map_size (m : key_counts_t) : N := N.of_nat (List.length m).

(** ** Doubles *)

Definition double : Type := spec_float.

Definition double_of_Z (z : Z) : double := binary_normalize 53 1024 z 0 false.
Definition double_div (a b : double) : double := SFdiv 53 1024 a b.
Definition double_mul (a b : double) : double := SFmul 53 1024 a b.
Definition double_ge (a b : double) : bool := SFleb b a.

(** [static_cast<int>(d)]: truncation toward zero, defined when the truncated
    value is an [int]. *)
Definition trunc_double (d : double) : option Z :=
  match d with
  | S754_zero _ => Some 0
  | S754_finite s m e =>
      let mag := match e with
                 | Zneg p => Z.shiftr (Zpos m) (Zpos p)
                 | _ => Z.shiftl (Zpos m) e
                 end in
      Some (if s then - mag else mag)
  | _ => None
  end.

Definition int_of_double (d : double) : outcome Z :=
  match trunc_double d with
  | Some z => if (INT_MIN <=? z) && (z <=? INT_MAX) then Ok z else Crash
  | None => Crash
  end.

(** ** [unshard_visitor_t] and [multistore_unshard_visitor_t] *)

(** The point-read case, the same in both visitors. *)
Definition unshard_point (responses : list read_response_t) : outcome read_response_t :=
  rassert (Nat.eqb (List.length responses) 1) ;;;
  r0 <- deref (nth_error responses 0) ;;
  rassert (is_some (get_point_read_response r0)) ;;;
  Ok r0.

(** The response as both range-read cases initialise it before the [try]. *)
Definition initial_rget_response (rg : rget_read_t) : rget_read_response_t :=
  {| result := result_stream [];
     truncated := false;
     rr_key_range := inner (get_region (read_rget rg));
     last_considered_key := kr_left (inner (get_region (read_rget rg))) |}.

(** "First check to see if any of the responses we're unsharding threw." *)
Definition check_thrown (responses : list read_response_t) : outcome unit :=
  for_each (fun (_ : unit) i =>
              _rr <- deref (get_rget_read_response i) ;;
              match get_runtime_exc (result _rr) with
              | Some e => Throw e
              | None => Ok tt
              end) responses tt.

(** One step of a reduction: a new value scope holding [var1] and [var2],
    the body evaluated in it, the scope left when the block ends.  The
    scopes after the step and the value are returned. *)
Definition reduce_step (r : Reduction) (sc : scopes_t) (acc : scopes_t -> outcome json_t)
    (v : json_t) : outcome (scopes_t * json_t) :=
  let sc1 := new_val_scope sc in
  a <- acc sc1 ;;
  let sc2 := put_in_scope (var1 r) a sc1 in
  let sc3 := put_in_scope (var2 r) v sc2 in
  res <- eval (body r) sc3 ;;
  Ok (pop_val_scope sc3, res).

(** The branch of a [Builtin_GroupedMapReduce] terminal: the state is the
    scopes of the environment and the groups merged so far. *)
Definition unshard_gmr (gmr : Builtin_GroupedMapReduce) (sc0 : scopes_t)
    (responses : list read_response_t) : outcome (scopes_t * groups_t) :=
  for_each (fun st i =>
              _rr <- deref (get_rget_read_response i) ;;
              groups <- deref (get_groups (result _rr)) ;;
              for_each (fun (st : scopes_t * groups_t) (j : json_t * json_t) =>
                          let '(sc, res_groups) := st in
                          step <- reduce_step (reduction gmr) sc
                                    (fun sc1 =>
                                       b <- eval (base (reduction gmr)) sc1 ;;
                                       Ok (get_with_default res_groups (fst j) b))
                                    (snd j) ;;
                          Ok (fst step, groups_assign (fst j) (snd step) res_groups))
                       groups st)
           responses (sc0, []).

(** The branch of a [Reduction] terminal. *)
Definition unshard_reduction (r : Reduction) (sc0 : scopes_t)
    (responses : list read_response_t) : outcome (scopes_t * atom_t) :=
  res_atom <- eval (base r) sc0 ;;
  for_each (fun (st : scopes_t * atom_t) i =>
              _rr <- deref (get_rget_read_response i) ;;
              atom <- deref (get_atom (result _rr)) ;;
              reduce_step r (fst st) (fun _ => Ok (snd st)) atom)
           responses (sc0, res_atom).

(** The branch of a [Length] terminal.  The result is first assigned
    [atom_t()]; [res_length] is [boost::get<length_t>] of that result, and
    the next statement writes through it. *)
Definition unshard_length (rg_response : rget_read_response_t)
    (responses : list read_response_t) : outcome rget_read_response_t :=
  let rg_response := set_result rg_response (result_atom null_json) in
  let res_length := get_length (result rg_response) in
  _ <- deref res_length ;;
  total <- for_each (fun (res_length : Z) i =>
                       _rr <- deref (get_rget_read_response i) ;;
                       length <- deref (get_length (result _rr)) ;;
                       Ok (int32 (res_length + l_length length)))
                    responses 0 ;;
  Ok (set_result rg_response (result_length {| l_length := total |})).

(** The branch of a [WriteQuery_ForEach] terminal, written like the
    [Length] one. *)
Definition unshard_for_each (rg_response : rget_read_response_t)
    (responses : list read_response_t) : outcome rget_read_response_t :=
  let rg_response := set_result rg_response (result_atom null_json) in
  let res_inserted := get_inserted (result rg_response) in
  _ <- deref res_inserted ;;
  total <- for_each (fun (res_inserted : Z) i =>
                       _rr <- deref (get_rget_read_response i) ;;
                       inserted <- deref (get_inserted (result _rr)) ;;
                       Ok (int32 (res_inserted + i_inserted inserted)))
                    responses 0 ;;
  Ok (set_result rg_response (result_inserted {| i_inserted := total |})).

(** The branches of a present terminal, shared by the two visitors. *)
Definition unshard_terminal (rg : rget_read_t) (t : terminal_variant_t)
    (rg_response : rget_read_response_t) (responses : list read_response_t)
  : outcome rget_read_response_t :=
  match t with
  | terminal_gmr gmr =>
      st <- unshard_gmr gmr (scopes rg) responses ;;
      Ok (set_result rg_response (result_groups (snd st)))
  | terminal_reduction r =>
      st <- unshard_reduction r (scopes rg) responses ;;
      Ok (set_result rg_response (result_atom (snd st)))
  | terminal_length => unshard_length rg_response responses
  | terminal_for_each _ => unshard_for_each rg_response responses
  end.

(** "A vanilla range get" of [unshard_visitor_t]: streams concatenated,
    [truncated] or-ed, the largest [last_considered_key] kept. *)
Definition unshard_stream (rg_response : rget_read_response_t)
    (responses : list read_response_t) : outcome rget_read_response_t :=
  let rg_response := set_result rg_response (result_stream []) in
  st <- for_each (fun (st : rget_read_response_t * stream_t) i =>
              let '(rg_response, res_stream) := st in
              _rr <- deref (get_rget_read_response i) ;;
              stream <- deref (get_stream (result _rr)) ;;
              let res_stream := (res_stream ++ stream)%list in
              let rg_response := set_truncated rg_response
                                   (truncated rg_response || truncated _rr) in
              let rg_response :=
                if key_lt (last_considered_key rg_response) (last_considered_key _rr)
                then set_last_considered_key rg_response (last_considered_key _rr)
                else rg_response in
              Ok (rg_response, res_stream))
           responses (rg_response, []) ;;
  Ok (set_result (fst st) (result_stream (snd st))).

(** The first loop of the multistore "vanilla range get": "figure out what
    the last considered key actually is".  [lower_last_considered_key] is the
    body of the loop. *)
Definition lower_last_considered_key (max : N) (rg_response : rget_read_response_t)
    (i : read_response_t) : outcome rget_read_response_t :=
  _rr <- deref (get_rget_read_response i) ;;
  stream <- deref (get_stream (result _rr)) ;;
  if N.eqb (N.of_nat (List.length stream)) max then
    if key_lt (last_considered_key _rr) (last_considered_key rg_response)
    then Ok (set_last_considered_key rg_response (last_considered_key _rr))
    else Ok rg_response
  else Ok rg_response.

Definition figure_out_last_considered_key (rg : rget_read_t)
    (rg_response : rget_read_response_t) (responses : list read_response_t)
  : outcome rget_read_response_t :=
  let rg_response :=
    set_last_considered_key rg_response
      (last_key_in_range (inner (get_region (read_rget rg)))) in
  for_each (lower_last_considered_key (maximum rg)) responses rg_response.

(** The second loop: "filter out the results that went past our last
    considered key".  [push_back_filtered] is the body of the loop; its state
    is the response and the stream [res_stream] points to. *)
Definition push_back_filtered (st : rget_read_response_t * stream_t)
    (i : read_response_t) : outcome (rget_read_response_t * stream_t) :=
  let '(rg_response, res_stream) := st in
  _rr <- deref (get_rget_read_response i) ;;
  stream <- deref (get_stream (result _rr)) ;;
  let res_stream :=
    fold_left (fun (res_stream : stream_t) jt =>
                 if key_le (fst jt) (last_considered_key rg_response)
                 then (res_stream ++ [jt])%list
                 else res_stream)
              stream res_stream in
  Ok (set_truncated rg_response (truncated rg_response || truncated _rr),
      res_stream).

Definition filter_streams (rg_response : rget_read_response_t)
    (responses : list read_response_t) : outcome rget_read_response_t :=
  st <- for_each push_back_filtered responses (rg_response, []) ;;
  Ok (set_result (fst st) (result_stream (snd st))).

Definition multistore_unshard_stream (rg : rget_read_t)
    (rg_response : rget_read_response_t) (responses : list read_response_t)
  : outcome rget_read_response_t :=
  let rg_response := set_result rg_response (result_stream []) in
  rg_response <- figure_out_last_considered_key rg rg_response responses ;;
  filter_streams rg_response responses.

(** [operator()(const rget_read_t &)] of the two visitors.  After the first
    loop only the terminal branches that evaluate terms can throw, and they
    assign no field of the response but [result]: the handler finds the other
    fields as they were initialised. *)
Definition unshard_rget (rg : rget_read_t) (responses : list read_response_t)
  : outcome read_response_t :=
  let rg_response := initial_rget_response rg in
  rg_response <-
    try_catch
      (check_thrown responses ;;;
       match terminal rg with
       | None => unshard_stream rg_response responses
       | Some t => unshard_terminal rg t rg_response responses
       end)
      (fun e => Ok (set_result rg_response (result_exc e))) ;;
  Ok (response_rget rg_response).

Definition multistore_unshard_rget (rg : rget_read_t) (responses : list read_response_t)
  : outcome read_response_t :=
  let rg_response := initial_rget_response rg in
  rg_response <-
    try_catch
      (check_thrown responses ;;;
       match terminal rg with
       | None => multistore_unshard_stream rg rg_response responses
       | Some t => unshard_terminal rg t rg_response responses
       end)
      (fun e => Ok (set_result rg_response (result_exc e))) ;;
  Ok (response_rget rg_response).

(** The assertions both distribution cases start with. *)
Definition distribution_preamble (responses : list read_response_t) : outcome unit :=
  rassert (Nat.ltb 0 (List.length responses)) ;;;
  r0 <- deref (nth_error responses 0) ;;
  rassert (is_some (get_distribution_read_response r0)) ;;;
  rassert (Nat.eqb (List.length responses) 1
           || match nth_error responses 1 with
              | Some r1 => is_some (get_distribution_read_response r1)
              | None => false
              end).

(** [responses[0]] and [responses[1]] start with the same key. *)
Definition same_first_key (responses : list read_response_t) : outcome bool :=
  r0 <- deref (nth_error responses 0) ;;
  d0 <- deref (get_distribution_read_response r0) ;;
  r1 <- deref (nth_error responses 1) ;;
  d1 <- deref (get_distribution_read_response r1) ;;
  k0 <- begin_first (key_counts d0) ;;
  k1 <- begin_first (key_counts d1) ;;
  Ok (key_eq k0 k1).

(** [operator()(const distribution_read_t &)] of [unshard_visitor_t]. *)
Definition unshard_distribution (responses : list read_response_t)
  : outcome read_response_t :=
  distribution_preamble responses ;;;
  hash_sharded <- (if Nat.ltb 1 (List.length responses)
                   then same_first_key responses else Ok false) ;;
  rassert (negb hash_sharded) ;;;
  response <-
    for_each (fun (response : key_counts_t) i =>
                response_piece <- deref (get_distribution_read_response i) ;;
                for_each (fun (_ : unit) it =>
                            rassert (negb (std_contains response (fst it))))
                         (key_counts response_piece) tt ;;;
                Ok (map_insert_range response (key_counts response_piece)))
             responses [] ;;
  Ok (response_distribution {| key_counts := response |}).

(** The sums of the multistore distribution case: [tmp_total_keys] of a
    piece, and the loop over the pieces, whose state is [total_num_keys],
    [total_keys_in_res] and the piece copied into the response. *)
Definition tmp_total_keys (m : key_counts_t) : Z :=
  fold_left (fun acc it => int64 (acc + snd it)) m 0.

Definition consider_piece (st : Z * Z * key_counts_t) (i : read_response_t)
  : outcome (Z * Z * key_counts_t) :=
  let '(total_num_keys, total_keys_in_res, response) := st in
  response_piece <- deref (get_distribution_read_response i) ;;
  let tmp := tmp_total_keys (key_counts response_piece) in
  let total_num_keys := int64 (total_num_keys + tmp) in
  if N.ltb (map_size response) (map_size (key_counts response_piece))
  then Ok (total_num_keys, tmp, key_counts response_piece)
  else Ok (total_num_keys, total_keys_in_res, response).

Definition select_piece (responses : list read_response_t)
  : outcome (Z * Z * key_counts_t) :=
  for_each consider_piece responses (0, 0, []).

(** The last loop: every count multiplied by the scale factor. *)
Definition scale_count (scale_factor : double) (done : key_counts_t)
    (it : store_key_t * Z) : outcome key_counts_t :=
  v <- int_of_double (double_mul (double_of_Z (snd it)) scale_factor) ;;
  Ok (done ++ [(fst it, v)])%list.

Definition scale_counts (scale_factor : double) (m : key_counts_t) : outcome key_counts_t :=
  for_each (scale_count scale_factor) m [].

(** [operator()(const distribution_read_t &)] of
    [multistore_unshard_visitor_t]. *)
Definition multistore_unshard_distribution (responses : list read_response_t)
  : outcome read_response_t :=
  distribution_preamble responses ;;;
  rassert (Nat.ltb 1 (List.length responses)) ;;;
  same <- same_first_key responses ;;
  rassert same ;;;
  rassert (Nat.ltb 0 (List.length responses)) ;;;
  st <- select_piece responses ;;
  let '(total_num_keys, total_keys_in_res, response) := st in
  if total_keys_in_res =? 0 then
    Ok (response_distribution {| key_counts := response |})
  else
    let scale_factor :=
      double_div (double_of_Z total_num_keys) (double_of_Z total_keys_in_res) in
    rassert (double_ge scale_factor (double_of_Z 1)) ;;;
    response <- scale_counts scale_factor response ;;
    Ok (response_distribution {| key_counts := response |}).

(** [read_t::unshard] and [read_t::multistore_unshard]. *)
Definition unshard (r : read_t) (responses : list read_response_t) (ctx : context_t)
  : outcome read_response_t :=
  match r with
  | read_point _ => unshard_point responses
  | read_rget rg => unshard_rget rg responses
  | read_distribution _ => unshard_distribution responses
  end.

Definition multistore_unshard (r : read_t) (responses : list read_response_t)
    (ctx : context_t) : outcome read_response_t :=
  match r with
  | read_point _ => unshard_point responses
  | read_rget rg => multistore_unshard_rget rg responses
  | read_distribution _ => multistore_unshard_distribution responses
  end.

(** ** Writes *)

(** Modelled from the spec: the writes of protocol.hpp, "PointWrite{key,
    value}", "PointModify{key, primary_key, op, mapping, scopes}" and
    "PointDelete{key}". *)
Record point_write_t := { pw_key : store_key_t; pw_data : json_t }.
Record point_modify_t := {
  pm_primary_key : string;
  pm_key : store_key_t;
  pm_op : Z;
  pm_scopes : scopes_t;
  pm_mapping : Mapping
}.
Record point_delete_t := { pd_key : store_key_t }.

Inductive write_t : Type :=
| write_point_write (pw : point_write_t)
| write_point_modify (pm : point_modify_t)
| write_point_delete (pd : point_delete_t).

Inductive write_response_t : Type :=
| response_point_write (r : point_write_response_t)
| response_point_modify (r : point_modify_response_t)
| response_point_delete (r : point_delete_response_t).

(** [w_get_region_visitor] and [write_t::get_region]. *)
Definition write_get_region (w : write_t) : region_t :=
  match w with
  | write_point_write pw => monokey_region (pw_key pw)
  | write_point_modify pm => monokey_region (pm_key pm)
  | write_point_delete pd => monokey_region (pd_key pd)
  end.

(** [w_shard_visitor] and [write_t::shard]. *)
Definition write_shard (w : write_t) (region : region_t) : outcome write_t :=
  match w with
  | write_point_write pw =>
      rassert (region_eqb (monokey_region (pw_key pw)) region) ;;;
      Ok (write_point_write pw)
  | write_point_modify pm =>
      rassert (region_eqb (monokey_region (pm_key pm)) region) ;;;
      Ok (write_point_modify pm)
  | write_point_delete pd =>
      rassert (region_eqb (monokey_region (pd_key pd)) region) ;;;
      Ok (write_point_delete pd)
  end.

(** [write_t::unshard]. *)
Definition write_unshard (w : write_t) (responses : list write_response_t)
    (ctx : context_t) : outcome write_response_t :=
  rassert (Nat.eqb (List.length responses) 1) ;;;
  deref (nth_error responses 0).

(** [write_t::multistore_unshard]. *)
Definition write_multistore_unshard (w : write_t) (responses : list write_response_t)
    (ctx : context_t) : outcome write_response_t :=
  write_unshard w responses ctx.

(** ** Notions the statements use *)

(** A piece that is a range-read response whose result is no runtime error. *)
Definition no_runtime_exc (p : read_response_t) : Prop :=
  exists rr, p = response_rget rr /\ get_runtime_exc (result rr) = None.

(** A range-read response that holds a stream, and the stream it holds. *)
Definition holds_stream (rr : rget_read_response_t) : Prop :=
  exists s, result rr = result_stream s.

Definition stream_of (rr : rget_read_response_t) : stream_t :=
  match result rr with
  | result_stream s => s
  | _ => []
  end.

(** The piece returned a page of exactly [max] elements. *)
Definition full_page (max : N) (rr : rget_read_response_t) : bool :=
  N.eqb (N.of_nat (List.length (stream_of rr))) max.

(** The smaller of two keys, and the least of the last considered keys of
    some pieces and a starting key. *)
Definition key_min (a b : store_key_t) : store_key_t :=
  if key_lt b a then b else a.

Definition least_last_considered_key (start : store_key_t)
    (pieces : list rget_read_response_t) : store_key_t :=
  fold_left (fun acc rr => key_min acc (last_considered_key rr)) pieces start.

(** The exact sum of the counts of a map, and of all the maps of some
    pieces. *)
Definition sum_counts (m : key_counts_t) : Z :=
  fold_right (fun it acc => snd it + acc) 0 m.

Definition total_counts (pieces : list distribution_read_response_t) : Z :=
  fold_right (fun d acc => sum_counts (key_counts d) + acc) 0 pieces.

(** Key counts count keys: none is negative. *)
Definition counts_keys (d : distribution_read_response_t) : Prop :=
  Forall (fun it => 0 <= snd it) (key_counts d).

(** A count scaled by a factor, when the product is an [int]. *)
Definition scaled (scale_factor : double) (it it' : store_key_t * Z) : Prop :=
  fst it' = fst it
  /\ int_of_double (double_mul (double_of_Z (snd it)) scale_factor) = Ok (snd it').

(** The pairs of a piece that are not past a key. *)
Definition up_to (k : store_key_t) (rr : rget_read_response_t) : stream_t :=
  filter (fun jt => key_le (fst jt) k) (stream_of rr).

End Protocol.

Arguments read_t {ext}.
Arguments read_response_t {ext}.
Arguments write_t {ext}.
Arguments write_response_t {ext}.

(** ** Backfill chunks *)

(** Modelled from the spec: [key_range_t::contains_key] of btree/keys.hpp, on
    a range with an inclusive left end and an unbounded, open or closed
    right end. *)
Definition contains_key (kr : key_range_t) (k : store_key_t) : bool :=
  key_le (kr_left kr) k
  && match kr_right kr with
     | right_unbounded => true
     | right_open u => key_lt k u
     | right_closed u => key_le k u
     end.

Section Backfill.

Context {ext : Externals}.

(** [repli_timestamp_t] with its constant [invalid], and the two region
    functions of hash_region.hpp the chunk visitors call. *)
Variable repli_timestamp_t : Type.
Variable invalid : repli_timestamp_t.
Variable region_intersection : region_t -> region_t -> region_t.
Variable region_is_empty : region_t -> bool.

(** Modelled from the spec: the chunks of protocol.hpp, "DeleteKey{key,
    recency}", "DeleteRange{region}" and "KeyValuePair{atom}" where "atom =
    {key, value, recency}", with the field names this file uses. *)
Record backfill_atom_t := {
  atom_key : store_key_t;
  atom_value : json_t;
  atom_recency : repli_timestamp_t
}.

Record delete_key_t := {
  dk_key : store_key_t;
  dk_recency : repli_timestamp_t
}.

Record delete_range_t := { dr_range : region_t }.

Record key_value_pair_t := { backfill_atom : backfill_atom_t }.

Inductive backfill_chunk_t : Type :=
| chunk_delete_key (del : delete_key_t)
| chunk_delete_range (del : delete_range_t)
| chunk_key_value_pair (kv : key_value_pair_t).

(** [backfill_chunk_get_region_visitor_t] and [backfill_chunk_t::get_region]. *)
Definition chunk_get_region (c : backfill_chunk_t) : region_t :=
  match c with
  | chunk_delete_key del => monokey_region (dk_key del)
  | chunk_delete_range del => dr_range del
  | chunk_key_value_pair kv => monokey_region (atom_key (backfill_atom kv))
  end.

(** [backfill_chunk_get_btree_repli_timestamp_visitor_t] and
    [backfill_chunk_t::get_btree_repli_timestamp]. *)
Definition get_btree_repli_timestamp (c : backfill_chunk_t) : repli_timestamp_t :=
  match c with
  | chunk_delete_key del => dk_recency del
  | chunk_delete_range _ => invalid
  | chunk_key_value_pair kv => atom_recency (backfill_atom kv)
  end.

(** [backfill_chunk_shard_visitor_t] and [backfill_chunk_t::shard]. *)
Definition chunk_shard (c : backfill_chunk_t) (region : region_t)
  : outcome backfill_chunk_t :=
  match c with
  | chunk_delete_key del =>
      let ret := chunk_delete_key del in
      rassert (region_is_superset region (chunk_get_region ret)) ;;;
      Ok ret
  | chunk_delete_range del =>
      let r := region_intersection (dr_range del) region in
      rassert (negb (region_is_empty r)) ;;;
      Ok (chunk_delete_range {| dr_range := r |})
  | chunk_key_value_pair kv =>
      let ret := chunk_key_value_pair kv in
      rassert (region_is_superset region (chunk_get_region ret)) ;;;
      Ok ret
  end.

(** [range_key_tester_t::key_should_be_erased] of
    [receive_backfill_visitor_t], built on the region of a [delete_range_t]. *)
Definition key_should_be_erased (delete_range : region_t) (key : store_key_t) : bool :=
  let h := uint64 (hash_region_hasher key) in
  (beg delete_range <=? h) && (h <? end_ delete_range)
  && contains_key (inner delete_range) key.

End Backfill.

(** ** [rget_data_cmp] *)

(** The order on the pairs of a stream: by key. *)
Definition rget_data_cmp {V : Type} (a b : store_key_t * V) : bool :=
  key_lt (fst a) (fst b).

(** ** Notions the further statements use *)

(** A call that lets no exception out. *)
Definition no_throw {A : Type} (m : outcome A) : Prop :=
  forall e, m <> Throw e.

(** The larger of two keys. *)
Definition key_max (a b : store_key_t) : store_key_t :=
  if key_lt a b then b else a.

(** A [std::map<store_key_t, int>] as the list of its entries: every key is
    less than the keys after it. *)
Fixpoint increasing (m : key_counts_t) : Prop :=
  match m with
  | [] => True
  | (k, _) :: m' => Forall (fun it => key_lt k (fst it) = true) m' /\ increasing m'
  end.

(** Two pieces of a distribution that share no key. *)
Definition disjoint_keys (d d' : distribution_read_response_t) : Prop :=
  forall k, In k (map fst (key_counts d)) -> ~ In k (map fst (key_counts d')).

Section Notions.

Context {ext : Externals}.

(** The greatest of the last considered keys of some pieces and a starting
    key, and whether one of the pieces is truncated. *)
Definition greatest_last_considered_key (start : store_key_t)
    (pieces : list rget_read_response_t) : store_key_t :=
  fold_left (fun acc rr => key_max acc (last_considered_key rr)) pieces start.

Definition some_truncated (pieces : list rget_read_response_t) : bool :=
  existsb truncated pieces.

(** A range-read response that holds an atom, and the atom it holds. *)
Definition holds_atom (rr : rget_read_response_t) : Prop :=
  exists a, result rr = result_atom a.

Definition atom_of (rr : rget_read_response_t) : json_t :=
  match result rr with
  | result_atom a => a
  | _ => null_json
  end.

(** A range-read response that holds groups, and the groups it holds. *)
Definition holds_groups (rr : rget_read_response_t) : Prop :=
  exists g, result rr = result_groups g.

Definition groups_of (rr : rget_read_response_t) : groups_t :=
  match result rr with
  | result_groups g => g
  | _ => []
  end.

(** Two keys of a [groups_t] that are the same key: neither is less. *)
Definition same_group (a b : json_t) : bool :=
  negb (json_less a b) && negb (json_less b a).

(** The values some pieces hold for a group, in the order of the pieces. *)
Definition group_values (g : json_t) (entries : groups_t) : list json_t :=
  map snd (filter (fun j => same_group (fst j) g) entries).

Definition values_of (g : json_t) (pieces : list rget_read_response_t)
  : list json_t :=
  group_values g (flat_map groups_of pieces).

(** One more value folded into what a group holds: the base stands for a
    group that holds nothing yet. *)
Definition reduce_group (f : json_t -> json_t -> json_t) (z : json_t)
    (acc : option json_t) (v : json_t) : option json_t :=
  Some (f (match acc with Some a => a | None => z end) v).

(** A [groups_t] as the list of its entries: every key is less than the keys
    after it. *)
Fixpoint groups_sorted (g : groups_t) : Prop :=
  match g with
  | [] => True
  | (k, _) :: g' =>
      Forall (fun it => json_less k (fst it) = true) g' /\ groups_sorted g'
  end.

(** What the loops of a grouped map-reduce keep: the groups merged so far
    are sorted, hold values of [P], and hold for every group the fold of the
    values met for it. *)
Definition merged_so_far (f : json_t -> json_t -> json_t) (z : json_t)
    (P : json_t -> Prop) (entries res_groups : groups_t) : Prop :=
  groups_sorted res_groups
  /\ Forall (fun j => P (snd j)) res_groups
  /\ forall g, groups_find g res_groups
               = fold_left (reduce_group f z) (group_values g entries) None.

End Notions.

(** ** A concrete instance

    Used to run the definitions on examples.  JSON values are integers (or
    the null pointer), terms are sums of constants and variables, a scope
    binds names to values. *)
Module Sample.

Local Open Scope string_scope.

Inductive term : Type :=
| t_num (z : Z)
| t_var (x : string)
| t_add (a b : term).

Definition scope_t : Type := list (string * Z).
Definition scope_stack : Type := list scope_t.

Fixpoint lookup_scope (x : string) (sc : scope_t) : option Z :=
  match sc with
  | [] => None
  | (y, v) :: sc' => if String.eqb x y then Some v else lookup_scope x sc'
  end.

Fixpoint lookup (x : string) (scs : scope_stack) : option Z :=
  match scs with
  | [] => None
  | sc :: scs' =>
      match lookup_scope x sc with
      | Some v => Some v
      | None => lookup x scs'
      end
  end.

Definition unbound (x : string) : runtime_exc_t :=
  {| message := x; backtrace := [] |}.

Fixpoint eval_term (t : term) (scs : scope_stack) : outcome (option Z) :=
  match t with
  | t_num z => Ok (Some z)
  | t_var x =>
      match lookup x scs with
      | Some v => Ok (Some v)
      | None => Throw (unbound x)
      end
  | t_add a b =>
      va <- eval_term a scs ;;
      vb <- eval_term b scs ;;
      match va, vb with
      | Some x, Some y => Ok (Some (x + y))
      | _, _ => Throw (unbound "null")
      end
  end.

Definition put (x : string) (v : option Z) (scs : scope_stack) : scope_stack :=
  match v, scs with
  | Some z, sc :: scs' => ((x, z) :: sc) :: scs'
  | Some z, [] => [[(x, z)]]
  | None, _ => scs
  end.

Definition less (a b : option Z) : bool :=
  match a, b with
  | None, Some _ => true
  | Some x, Some y => (x <? y)%Z
  | _, _ => false
  end.

Definition right_bound_le (a b : right_bound_t) : bool :=
  match a, b with
  | _, right_unbounded => true
  | right_unbounded, _ => false
  | right_open k, right_open k' => key_le k k'
  | right_open k, right_closed k' => key_le k k'
  | right_closed k, right_closed k' => key_le k k'
  | right_closed k, right_open k' => key_lt k k'
  end.

(** Modelled from the spec: [region_is_superset] of hash_region.hpp,
    "componentwise". *)
Definition is_superset (a b : region_t) : bool :=
  (beg a <=? beg b)%Z && (end_ b <=? end_ a)%Z
  && key_le (kr_left (inner a)) (kr_left (inner b))
  && right_bound_le (kr_right (inner b)) (kr_right (inner a)).

(** Modelled from the spec: [last_key_in_range] of btree/keys.hpp, "the
    range's upper bound".  For a range without one this instance takes a key
    of 250 bytes [0xff]. *)
Definition max_key : store_key_t :=
  string_of_list_ascii (repeat (ascii_of_N 255) 250).

Definition upper_bound (kr : key_range_t) : store_key_t :=
  match kr_right kr with
  | right_unbounded => max_key
  | right_open k => k
  | right_closed k => k
  end.

(** A hash of a key: the sum of its bytes. *)
Definition hasher (k : store_key_t) : Z :=
  fold_left (fun acc c => acc + Z.of_N (N_of_ascii c)) (list_ascii_of_string k) 0.

#[export] Instance externals : Externals := {|
  HASH_REGION_HASH_SIZE := 2 ^ 63;
  hash_region_hasher := hasher;
  region_is_superset := is_superset;
  last_key_in_range := upper_bound;
  Term := term;
  Mapping := term;
  WriteQuery_ForEach := unit;
  transform_t := unit;
  json_t := option Z;
  null_json := None;
  scopes_t := scope_stack;
  context_t := unit;
  eval := eval_term;
  new_val_scope := fun scs => [] :: scs;
  put_in_scope := put;
  pop_val_scope := fun scs => tl scs;
  json_less := less;
  point_write_response_t := bool;
  point_modify_response_t := bool;
  point_delete_response_t := bool
|}.

(** A range read over the closed range from ["a"] to ["z"]. *)
Definition rget (max : N) (t : option (@terminal_variant_t externals))
  : @rget_read_t externals :=
  {| key_range := key_range_closed "a" "z";
     maximum := max;
     transform := tt;
     terminal := t;
     scopes := [] |}.

(** A piece of a range read. *)
Definition piece (r : @result_t externals) (lck : store_key_t)
  : @read_response_t externals :=
  response_rget {| result := r; truncated := false;
                   rr_key_range := key_range_closed "a" "z";
                   last_considered_key := lck |}.

Definition counts (m : key_counts_t) : @read_response_t externals :=
  response_distribution {| key_counts := m |}.

Definition distribution : @read_t externals :=
  read_distribution {| max_depth := 2; range := key_range_closed "a" "z" |}.

(** Two pieces of one key each, and an error. *)
Definition page_a : @rget_read_response_t externals :=
  {| result := result_stream [("a", Some 1%Z)]; truncated := false;
     rr_key_range := key_range_closed "a" "z"; last_considered_key := "a" |}.

Definition page_bq : @rget_read_response_t externals :=
  {| result := result_stream [("b", Some 2%Z); ("q", Some 3%Z)]; truncated := true;
     rr_key_range := key_range_closed "a" "z"; last_considered_key := "q" |}.

Definition page_empty : @rget_read_response_t externals :=
  {| result := result_stream []; truncated := false;
     rr_key_range := key_range_closed "a" "z"; last_considered_key := "a" |}.

Definition division_by_zero : runtime_exc_t :=
  {| message := "division by zero"; backtrace := ["body"] |}.

Definition page_exc : @rget_read_response_t externals :=
  {| result := result_exc division_by_zero; truncated := false;
     rr_key_range := key_range_closed "a" "z"; last_considered_key := "a" |}.

(** The two pieces of the distribution example of the specification. *)
Definition counts_abc : distribution_read_response_t :=
  {| key_counts := [("a", 10%Z); ("b", 10%Z); ("c", 10%Z)] |}.

Definition counts_ab : distribution_read_response_t :=
  {| key_counts := [("a", 40%Z); ("b", 60%Z)] |}.

(** Pieces of a reduction and of a grouped map-reduce that adds values up. *)
Definition sum_reduction : @Reduction externals :=
  {| base := t_num 0; var1 := "acc"; var2 := "val";
     body := t_add (t_var "acc") (t_var "val") |}.

Definition sum_gmr : @Builtin_GroupedMapReduce externals :=
  {| group_mapping := t_num 0; value_mapping := t_num 0;
     reduction := sum_reduction |}.

Definition plus (a b : option Z) : option Z :=
  match a, b with
  | Some x, Some y => Some (x + y)%Z
  | _, _ => None
  end.

Definition is_number (v : option Z) : Prop := v <> None.

Definition atom_2 : @rget_read_response_t externals :=
  {| result := result_atom (Some 2%Z); truncated := true;
     rr_key_range := key_range_closed "a" "z"; last_considered_key := "c" |}.

Definition atom_null : @rget_read_response_t externals :=
  {| result := result_atom None; truncated := false;
     rr_key_range := key_range_closed "a" "z"; last_considered_key := "b" |}.

Definition atom_5 : @rget_read_response_t externals :=
  {| result := result_atom (Some 5%Z); truncated := false;
     rr_key_range := key_range_closed "a" "z"; last_considered_key := "d" |}.

Definition groups_a : @rget_read_response_t externals :=
  {| result := result_groups [(Some 1%Z, Some 2%Z); (Some 2%Z, Some 5%Z)];
     truncated := false;
     rr_key_range := key_range_closed "a" "z"; last_considered_key := "a" |}.

Definition groups_b : @rget_read_response_t externals :=
  {| result := result_groups [(Some 1%Z, Some 3%Z); (Some 3%Z, Some 1%Z)];
     truncated := false;
     rr_key_range := key_range_closed "a" "z"; last_considered_key := "a" |}.

(** Two pieces of a distribution over disjoint keys. *)
Definition counts_left : distribution_read_response_t :=
  {| key_counts := [("a", 3%Z); ("c", 4%Z)] |}.

Definition counts_right : distribution_read_response_t :=
  {| key_counts := [("m", 5%Z)] |}.

(** Modelled from the spec: [region_intersection] and [region_is_empty] of
    hash_region.hpp, "the region whose hash interval and key range are the
    intersections of the inputs; empty iff either component is empty". *)
Definition intersection (a b : region_t) : region_t :=
  {| beg := Z.max (beg a) (beg b);
     end_ := Z.min (end_ a) (end_ b);
     inner := {| kr_left := key_max (kr_left (inner a)) (kr_left (inner b));
                 kr_right := if right_bound_le (kr_right (inner a))
                                               (kr_right (inner b))
                             then kr_right (inner a)
                             else kr_right (inner b) |} |}.

Definition is_empty (r : region_t) : bool :=
  (end_ r <=? beg r)%Z
  || match kr_right (inner r) with
     | right_unbounded => false
     | right_open u => negb (key_lt (kr_left (inner r)) u)
     | right_closed u => negb (key_le (kr_left (inner r)) u)
     end.

(** Timestamps as numbers, the largest 32-bit one being [invalid]. *)
Definition timestamp : Type := N.
Definition invalid_timestamp : timestamp := 4294967295%N.

Definition delete_a_to_z : backfill_chunk_t timestamp :=
  chunk_delete_range timestamp
    {| dr_range := {| beg := 0; end_ := 8; inner := key_range_closed "a" "z" |} |}.

Definition shard_m_on : region_t :=
  {| beg := 4; end_ := 16;
     inner := {| kr_left := "m"; kr_right := right_closed "z" |} |}.

End Sample.

(** * Properties *)

(** ** Machine arithmetic *)

Lemma uint64_small (z : Z) : 0 <= z < 2 ^ 64 -> uint64 z = z.
Proof. intros H. unfold uint64. apply Z.mod_small. exact H. Qed.

Lemma wrap_signed_small (w z : Z) :
  0 < w -> - 2 ^ (w - 1) <= z < 2 ^ (w - 1) -> wrap_signed w z = z.
Proof.
  intros Hw Hz. unfold wrap_signed.
  assert (Hp : 2 ^ w = 2 * 2 ^ (w - 1)).
  { replace w with (Z.succ (w - 1)) at 1 by lia. apply Z.pow_succ_r. lia. }
  rewrite Z.mod_small; lia.
Qed.

Lemma int32_small (z : Z) : is_int z -> int32 z = z.
Proof.
  unfold is_int, INT_MIN, INT_MAX, int32. intros H.
  apply wrap_signed_small; simpl; lia.
Qed.

Lemma int64_small (z : Z) : - 2 ^ 63 <= z < 2 ^ 63 -> int64 z = z.
Proof. intros H. apply wrap_signed_small; simpl; lia. Qed.

(** ** Keys *)

Lemma key_eq_refl (k : store_key_t) : key_eq k k = true.
Proof. apply String.eqb_refl. Qed.

Lemma right_bound_eqb_refl (b : right_bound_t) : right_bound_eqb b b = true.
Proof. destruct b; simpl; auto using key_eq_refl. Qed.

Lemma key_range_eqb_refl (kr : key_range_t) : key_range_eqb kr kr = true.
Proof.
  unfold key_range_eqb. now rewrite key_eq_refl, right_bound_eqb_refl.
Qed.

Lemma region_eqb_refl (r : region_t) : region_eqb r r = true.
Proof.
  unfold region_eqb. now rewrite !Z.eqb_refl, key_range_eqb_refl.
Qed.

Lemma string_compare_refl (a : string) : String.compare a a = Eq.
Proof.
  pose proof (String.compare_antisym a a) as H.
  destruct (String.compare a a); simpl in H; congruence.
Qed.

Lemma string_compare_trans (a b c : string) :
  String.compare a b <> Gt -> String.compare b c <> Gt -> String.compare a c <> Gt.
Proof.
  revert b c.
  induction a as [|x a IH]; intros [|y b] [|z c]; simpl; try congruence.
  unfold Ascii.compare.
  destruct (N.compare_spec (N_of_ascii x) (N_of_ascii y));
    destruct (N.compare_spec (N_of_ascii y) (N_of_ascii z));
    destruct (N.compare_spec (N_of_ascii x) (N_of_ascii z));
    try congruence; try lia; eauto.
Qed.

Lemma key_le_refl (a : store_key_t) : key_le a a = true.
Proof. unfold key_le, String.leb. now rewrite string_compare_refl. Qed.

Lemma key_le_trans (a b c : store_key_t) :
  key_le a b = true -> key_le b c = true -> key_le a c = true.
Proof.
  unfold key_le, String.leb. intros Hab Hbc.
  pose proof (string_compare_trans a b c) as H.
  destruct (String.compare a b); destruct (String.compare b c);
    destruct (String.compare a c); try discriminate; try reflexivity;
    exfalso; apply H; congruence.
Qed.

Lemma key_lt_le (a b : store_key_t) : key_lt a b = true -> key_le a b = true.
Proof.
  unfold key_lt, key_le, String.ltb, String.leb.
  destruct (String.compare a b); congruence.
Qed.

Lemma key_not_lt_le (a b : store_key_t) : key_lt a b = false -> key_le b a = true.
Proof.
  unfold key_lt, key_le, String.ltb, String.leb.
  rewrite (String.compare_antisym b a).
  destruct (String.compare a b); simpl; congruence.
Qed.

(** ** Loops *)

Lemma for_each_app {A S : Type} (f : S -> A -> outcome S) (l1 l2 : list A) (s : S) :
  for_each f (l1 ++ l2) s = (s' <- for_each f l1 s ;; for_each f l2 s').
Proof.
  revert s. induction l1 as [|a l1 IH]; intros s; simpl; [reflexivity|].
  destruct (f s a); simpl; auto.
Qed.

Lemma fold_left_push_filter {A : Type} (p : A -> bool) (l acc : list A) :
  fold_left (fun acc a => if p a then (acc ++ [a])%list else acc) l acc
  = (acc ++ filter p l)%list.
Proof.
  revert acc. induction l as [|a l IH]; intros acc; simpl.
  - now rewrite app_nil_r.
  - rewrite IH. destruct (p a); [|reflexivity].
    now rewrite <- app_assoc.
Qed.

Section Properties.

Context {ext : Externals}.

(** ** Sharding a read by its own region *)

(** C5.  For every read [r], point read, range read or distribution read,
    sharding [r] by the region it declares returns [r] itself:
    [r.shard(r.get_region()) == r].  The one fact used about
    [region_is_superset] is that a region is a superset of itself. *)
Theorem shard_get_region :
  (forall r : region_t, region_is_superset r r = true) ->
  forall r : read_t, shard r (get_region r) = Ok r.
Proof.
  intros Hrefl [pr | rg | dg]; simpl.
  - rewrite region_eqb_refl. reflexivity.
  - rewrite Hrefl. simpl. destruct rg; reflexivity.
  - rewrite Hrefl. simpl. destruct dg; reflexivity.
Qed.

(** ** The CPU sharding subspaces *)

Lemma cpu_sharding_subspace_eq (n i : Z) :
  0 <= HASH_REGION_HASH_SIZE < 2 ^ 64 ->
  1 <= n <= INT_MAX ->
  0 <= i < n ->
  cpu_sharding_subspace i n =
  Ok {| beg := HASH_REGION_HASH_SIZE / n * i;
        end_ := if i + 1 =? n then HASH_REGION_HASH_SIZE
                else HASH_REGION_HASH_SIZE / n * i + HASH_REGION_HASH_SIZE / n;
        inner := key_range_universe |}.
Proof.
  intros HS Hn Hi. unfold INT_MAX in Hn. unfold cpu_sharding_subspace.
  replace (i >=? 0) with true by (symmetry; apply Z.geb_le; lia).
  replace (i <? n) with true by (symmetry; apply Z.ltb_lt; lia).
  simpl bind.
  assert (Hw : 0 <= HASH_REGION_HASH_SIZE / n) by (apply Z.div_pos; lia).
  assert (Hwn : HASH_REGION_HASH_SIZE / n * n <= HASH_REGION_HASH_SIZE).
  { rewrite Z.mul_comm. apply Z.mul_div_le. lia. }
  rewrite (uint64_small n) by lia.
  rewrite (uint64_small i) by lia.
  rewrite (uint64_small (HASH_REGION_HASH_SIZE / n * i)) by nia.
  rewrite int32_small by (unfold is_int, INT_MIN, INT_MAX; lia).
  destruct (i + 1 =? n) eqn:E; [reflexivity|].
  apply Z.eqb_neq in E.
  rewrite uint64_small by nia. reflexivity.
Qed.

Lemma cpu_sharding_subspace_Ok (n i : Z) (r : region_t) :
  cpu_sharding_subspace i n = Ok r -> 0 <= i < n.
Proof.
  unfold cpu_sharding_subspace.
  destruct (i >=? 0) eqn:E1; simpl; [|discriminate].
  destruct (i <? n) eqn:E2; simpl; [|discriminate].
  intros _. apply Z.geb_le in E1. apply Z.ltb_lt in E2. lia.
Qed.

(** C9.  For every [n >= 1] the regions [cpu_sharding_subspace(0, n)] to
    [cpu_sharding_subspace(n-1, n)] all have the universal key range; every
    one but the last has width [HASH_REGION_HASH_SIZE / n] and the last ends
    at [HASH_REGION_HASH_SIZE]; their hash intervals are pairwise disjoint;
    and a hash lies in one of them exactly when it lies in
    [[0, HASH_REGION_HASH_SIZE)]. *)
Theorem cpu_sharding_subspace_partition (n : Z) :
  0 <= HASH_REGION_HASH_SIZE < 2 ^ 64 ->
  1 <= n <= INT_MAX ->
  (forall i, 0 <= i < n ->
     exists r, cpu_sharding_subspace i n = Ok r
               /\ inner r = key_range_universe
               /\ beg r = HASH_REGION_HASH_SIZE / n * i
               /\ (i + 1 < n -> end_ r - beg r = HASH_REGION_HASH_SIZE / n)
               /\ (i + 1 = n -> end_ r = HASH_REGION_HASH_SIZE))
  /\ (forall i j ri rj h,
        i <> j ->
        cpu_sharding_subspace i n = Ok ri ->
        cpu_sharding_subspace j n = Ok rj ->
        hash_in_region h ri = true -> hash_in_region h rj = false)
  /\ (forall h,
        0 <= h < HASH_REGION_HASH_SIZE <->
        exists i r, cpu_sharding_subspace i n = Ok r /\ hash_in_region h r = true).
Proof.
  intros HS Hn.
  assert (Hn' : 1 <= n) by lia.
  assert (Hw : 0 <= HASH_REGION_HASH_SIZE / n) by (apply Z.div_pos; lia).
  assert (Hwn : HASH_REGION_HASH_SIZE / n * n <= HASH_REGION_HASH_SIZE).
  { rewrite Z.mul_comm. apply Z.mul_div_le. lia. }
  split; [|split].
  - intros i Hi. eexists. split; [apply cpu_sharding_subspace_eq; assumption|].
    simpl. repeat split.
    + intros Hlt. destruct (i + 1 =? n) eqn:E; [apply Z.eqb_eq in E; lia|lia].
    + intros Heq. apply Z.eqb_eq in Heq. now rewrite Heq.
  - intros i j ri rj h Hij Hri Hrj Hin.
    pose proof (cpu_sharding_subspace_Ok _ _ _ Hri) as Hi.
    pose proof (cpu_sharding_subspace_Ok _ _ _ Hrj) as Hj.
    rewrite cpu_sharding_subspace_eq in Hri, Hrj by assumption.
    injection Hri as <-. injection Hrj as <-.
    unfold hash_in_region in *. simpl in *.
    apply andb_true_iff in Hin. destruct Hin as [Hb He].
    apply Z.leb_le in Hb. apply Z.ltb_lt in He.
    apply andb_false_iff.
    destruct (Z.eqb_spec (i + 1) n) as [Ei | Ei];
      destruct (Z.eqb_spec (j + 1) n) as [Ej | Ej].
    + lia.
    + right. apply Z.ltb_ge. nia.
    + left. apply Z.leb_gt. nia.
    + destruct (Z.lt_ge_cases i j).
      * left. apply Z.leb_gt. nia.
      * right. apply Z.ltb_ge. nia.
  - intros h. split.
    + intros Hh.
      set (w := HASH_REGION_HASH_SIZE / n) in *.
      assert (Hlast : HASH_REGION_HASH_SIZE / n * (n - 1) <= h ->
                      exists i r, cpu_sharding_subspace i n = Ok r
                                  /\ hash_in_region h r = true).
      { intros Hbeg. exists (n - 1). eexists.
        split; [apply cpu_sharding_subspace_eq; try assumption; lia|].
        unfold hash_in_region. simpl.
        replace (n - 1 + 1 =? n) with true by (symmetry; apply Z.eqb_eq; lia).
        apply andb_true_iff. split; [apply Z.leb_le | apply Z.ltb_lt]; lia. }
      destruct (Z.eq_dec w 0) as [E | E].
      { apply Hlast. fold w. rewrite E. lia. }
      assert (Hwpos : 0 < w) by lia.
      pose proof (Z.mul_div_le h w Hwpos) as Hlo.
      pose proof (Z.mul_succ_div_gt h w Hwpos) as Hhi.
      destruct (Z.lt_ge_cases (h / w) (n - 1)) as [Hlt | Hge].
      * (* [h] falls in a shard before the last *)
        assert (Hq : 0 <= h / w) by (apply Z.div_pos; lia).
        exists (h / w). eexists.
        split; [apply cpu_sharding_subspace_eq; try assumption; lia|].
        unfold hash_in_region. simpl. fold w.
        replace (h / w + 1 =? n) with false by (symmetry; apply Z.eqb_neq; lia).
        apply andb_true_iff. split; [apply Z.leb_le | apply Z.ltb_lt]; nia.
      * apply Hlast. fold w. nia.
    + intros (i & r & Hr & Hin).
      pose proof (cpu_sharding_subspace_Ok _ _ _ Hr) as Hi.
      rewrite cpu_sharding_subspace_eq in Hr by assumption.
      injection Hr as <-.
      unfold hash_in_region in Hin. simpl in Hin.
      apply andb_true_iff in Hin. destruct Hin as [Hb He].
      apply Z.leb_le in Hb. apply Z.ltb_lt in He.
      destruct (Z.eqb_spec (i + 1) n) as [Ei | Ei]; nia.
Qed.

(** ** Merging write responses *)

(** C10.  [write_t::multistore_unshard] behaves as [write_t::unshard] on
    every write and every vector of responses: both require exactly one
    response and return it unchanged. *)
Theorem write_multistore_unshard_unshard (w : write_t)
    (responses : list write_response_t) (ctx : context_t) :
  write_multistore_unshard w responses ctx = write_unshard w responses ctx
  /\ (forall r, responses = [r] ->
        write_unshard w responses ctx = Ok r
        /\ write_multistore_unshard w responses ctx = Ok r)
  /\ (List.length responses <> 1%nat ->
        write_unshard w responses ctx = Crash
        /\ write_multistore_unshard w responses ctx = Crash).
Proof.
  split; [reflexivity|]. split.
  - intros r ->. split; reflexivity.
  - intros Hlen. unfold write_multistore_unshard, write_unshard.
    destruct responses as [|r [|r' l]]; simpl in *; try (split; reflexivity).
    congruence.
Qed.

(** ** Runtime errors of the pieces *)

Lemma check_thrown_passes (responses : list read_response_t) :
  Forall no_runtime_exc responses -> check_thrown responses = Ok tt.
Proof.
  unfold check_thrown.
  induction 1 as [|p l (rr & -> & Hrr) _ IH]; simpl; [reflexivity|].
  rewrite Hrr. simpl. exact IH.
Qed.

Lemma check_thrown_throws (pre post : list read_response_t)
    (rr : rget_read_response_t) (e : runtime_exc_t) :
  Forall no_runtime_exc pre ->
  result rr = result_exc e ->
  check_thrown (pre ++ response_rget rr :: post) = Throw e.
Proof.
  intros Hpre Hrr. unfold check_thrown. rewrite for_each_app.
  fold (check_thrown pre). rewrite (check_thrown_passes pre Hpre).
  simpl. rewrite Hrr. reflexivity.
Qed.

(** C6.  In both mergers of a range read, whatever the terminal: when a
    piece's result is a runtime error and the pieces before it are range-read
    responses without one, the merged response carries that error as its
    result, whatever the pieces after it hold; the other fields are as
    initialised. *)
Theorem unshard_surfaces_runtime_exc (rg : rget_read_t)
    (pre post : list read_response_t) (rr : rget_read_response_t)
    (e : runtime_exc_t) (ctx : context_t) :
  Forall no_runtime_exc pre ->
  result rr = result_exc e ->
  exists merged,
    unshard (read_rget rg) (pre ++ response_rget rr :: post) ctx
    = Ok (response_rget merged)
    /\ multistore_unshard (read_rget rg) (pre ++ response_rget rr :: post) ctx
       = Ok (response_rget merged)
    /\ result merged = result_exc e
    /\ truncated merged = false
    /\ rr_key_range merged = key_range rg
    /\ last_considered_key merged = kr_left (key_range rg).
Proof.
  intros Hpre Hrr.
  exists (set_result (initial_rget_response rg) (result_exc e)).
  simpl. unfold unshard_rget, multistore_unshard_rget.
  rewrite (check_thrown_throws pre post rr e Hpre Hrr).
  repeat split; reflexivity.
Qed.

(** ** The [Length] terminal *)

(** With a [Length] terminal and no runtime error among the pieces, both
    mergers stop at the write through [res_length], which is null. *)
Lemma unshard_length_crashes (rg : rget_read_t) (responses : list read_response_t)
    (ctx : context_t) :
  terminal rg = Some terminal_length ->
  Forall no_runtime_exc responses ->
  unshard (read_rget rg) responses ctx = Crash
  /\ multistore_unshard (read_rget rg) responses ctx = Crash.
Proof.
  intros Ht Hok. simpl. unfold unshard_rget, multistore_unshard_rget.
  rewrite Ht, (check_thrown_passes responses Hok).
  split; reflexivity.
Qed.

(** ** The multistore merge of streams *)

Lemma set_last_considered_key_twice (rr : rget_read_response_t) (a b : store_key_t) :
  set_last_considered_key (set_last_considered_key rr a) b
  = set_last_considered_key rr b.
Proof. reflexivity. Qed.

Lemma holds_stream_of (rr : rget_read_response_t) :
  holds_stream rr -> result rr = result_stream (stream_of rr).
Proof. intros [s Hs]. unfold stream_of. now rewrite Hs. Qed.

(** The first loop keeps every field but [last_considered_key], which it
    lowers to the least of the full pages' keys. *)
Lemma figure_out_loop (max : N) (pieces : list rget_read_response_t)
    (rg_response : rget_read_response_t) :
  Forall holds_stream pieces ->
  for_each (lower_last_considered_key max) (map response_rget pieces) rg_response
  = Ok (set_last_considered_key rg_response
          (least_last_considered_key (last_considered_key rg_response)
             (filter (full_page max) pieces))).
Proof.
  intros Hs. revert rg_response.
  induction Hs as [|rr l Hrr _ IH]; intros rg_response.
  - destruct rg_response; reflexivity.
  - cbn [map for_each filter].
    unfold lower_last_considered_key at 1.
    cbn [get_rget_read_response deref bind].
    rewrite (holds_stream_of rr Hrr). cbn [get_stream deref bind].
    assert (E : full_page max rr
                = N.eqb (N.of_nat (List.length (stream_of rr))) max) by reflexivity.
    rewrite E.
    destruct (N.eqb (N.of_nat (List.length (stream_of rr))) max).
    + unfold least_last_considered_key. cbn [fold_left]. unfold key_min at 2.
      destruct (key_lt (last_considered_key rr) (last_considered_key rg_response));
        cbn [bind]; rewrite IH; reflexivity.
    + cbn [bind]. rewrite IH. reflexivity.
Qed.

Lemma figure_out_last_considered_key_eq (rg : rget_read_t)
    (pieces : list rget_read_response_t) (rg_response : rget_read_response_t) :
  Forall holds_stream pieces ->
  figure_out_last_considered_key rg rg_response (map response_rget pieces)
  = Ok (set_last_considered_key rg_response
          (least_last_considered_key (last_key_in_range (key_range rg))
             (filter (full_page (maximum rg)) pieces))).
Proof.
  intros Hs. unfold figure_out_last_considered_key.
  rewrite (figure_out_loop (maximum rg) pieces _ Hs). reflexivity.
Qed.

(** The second loop keeps the key, or-s the [truncated] flags and appends
    the pairs of every piece that are not past the key. *)
Lemma filter_streams_loop (pieces : list rget_read_response_t)
    (rg_response : rget_read_response_t) (res_stream : stream_t) :
  Forall holds_stream pieces ->
  for_each push_back_filtered (map response_rget pieces) (rg_response, res_stream)
  = Ok (set_truncated rg_response
          (fold_left (fun t rr => t || truncated rr) pieces (truncated rg_response)),
        (res_stream
         ++ flat_map (up_to (last_considered_key rg_response)) pieces)%list).
Proof.
  intros Hs. revert rg_response res_stream.
  induction Hs as [|rr l Hrr _ IH]; intros rg_response res_stream.
  - cbn [map for_each flat_map fold_left]. rewrite app_nil_r.
    destruct rg_response; reflexivity.
  - cbn [map for_each flat_map fold_left].
    unfold push_back_filtered at 1.
    cbn [get_rget_read_response deref bind].
    rewrite (holds_stream_of rr Hrr). cbn [get_stream deref bind].
    unfold stream_t.
    rewrite (fold_left_push_filter
               (fun jt : store_key_t * json_t =>
                  key_le (fst jt) (last_considered_key rg_response))), IH.
    unfold up_to at 2. rewrite <- app_assoc. reflexivity.
Qed.

(** The multistore merge of a range read without terminal, pieces holding
    streams: the whole response. *)
Lemma multistore_unshard_stream_eq (rg : rget_read_t)
    (pieces : list rget_read_response_t) (ctx : context_t) :
  terminal rg = None ->
  Forall holds_stream pieces ->
  let lck := least_last_considered_key (last_key_in_range (key_range rg))
               (filter (full_page (maximum rg)) pieces) in
  multistore_unshard (read_rget rg) (map response_rget pieces) ctx
  = Ok (response_rget
          {| result := result_stream (flat_map (up_to lck) pieces);
             truncated := fold_left (fun t rr => t || truncated rr) pieces false;
             rr_key_range := key_range rg;
             last_considered_key := lck |}).
Proof.
  intros Ht Hs lck. simpl. unfold multistore_unshard_rget.
  rewrite Ht, check_thrown_passes.
  - simpl. unfold multistore_unshard_stream.
    rewrite (figure_out_last_considered_key_eq rg pieces _ Hs). simpl.
    unfold filter_streams.
    rewrite (filter_streams_loop pieces _ _ Hs). reflexivity.
  - apply Forall_forall. intros p Hp. apply in_map_iff in Hp.
    destruct Hp as (rr & <- & Hin). exists rr. split; [reflexivity|].
    rewrite Forall_forall in Hs. rewrite (holds_stream_of rr (Hs rr Hin)).
    reflexivity.
Qed.

(** The least key is below the start and below every key it was taken
    over, and it is one of them. *)
Lemma least_last_considered_key_spec (pieces : list rget_read_response_t)
    (start : store_key_t) :
  let lck := least_last_considered_key start pieces in
  key_le lck start = true
  /\ (forall rr, In rr pieces -> key_le lck (last_considered_key rr) = true)
  /\ (lck = start \/ exists rr, In rr pieces /\ lck = last_considered_key rr).
Proof.
  revert start. induction pieces as [|rr l IH]; intros start; simpl.
  - split; [apply key_le_refl|]. split; [intros rr []|now left].
  - destruct (IH (key_min start (last_considered_key rr))) as (H1 & H2 & H3).
    unfold least_last_considered_key in *. simpl.
    set (m := fold_left _ l _) in *.
    assert (Hmin : key_le (key_min start (last_considered_key rr)) start = true
                   /\ key_le (key_min start (last_considered_key rr))
                        (last_considered_key rr) = true).
    { unfold key_min.
      destruct (key_lt (last_considered_key rr) start) eqn:E.
      - split; [now apply key_lt_le|apply key_le_refl].
      - split; [apply key_le_refl|now apply key_not_lt_le]. }
    destruct Hmin as [Hm1 Hm2].
    split; [eapply key_le_trans; eassumption|].
    split.
    + intros rr' [<- | Hin]; [eapply key_le_trans; eassumption|auto].
    + destruct H3 as [H3 | (rr' & Hin & H3)].
      * unfold key_min in H3.
        destruct (key_lt (last_considered_key rr) start);
          [right; exists rr; auto | now left].
      * right. exists rr'. auto.
Qed.

(** C1.  In the multistore merge of a range read without terminal, the
    merged [last_considered_key] is the least, starting from
    [last_key_in_range] of the request's key range, of the
    [last_considered_key]s of exactly the pieces whose stream has [maximum]
    elements: it is below the range's upper bound and below the key of each
    such piece, and it is one of those keys.  Pieces with a stream of another
    size do not enter. *)
Theorem multistore_last_considered_key_is_minimum (rg : rget_read_t)
    (pieces : list rget_read_response_t) (ctx : context_t) :
  terminal rg = None ->
  Forall holds_stream pieces ->
  exists merged,
    multistore_unshard (read_rget rg) (map response_rget pieces) ctx
    = Ok (response_rget merged)
    /\ last_considered_key merged
       = least_last_considered_key (last_key_in_range (key_range rg))
           (filter (full_page (maximum rg)) pieces)
    /\ key_le (last_considered_key merged) (last_key_in_range (key_range rg)) = true
    /\ (forall rr, In rr pieces -> full_page (maximum rg) rr = true ->
          key_le (last_considered_key merged) (last_considered_key rr) = true)
    /\ (last_considered_key merged = last_key_in_range (key_range rg)
        \/ exists rr, In rr pieces /\ full_page (maximum rg) rr = true
                      /\ last_considered_key merged = last_considered_key rr).
Proof.
  intros Ht Hs. eexists.
  split; [apply (multistore_unshard_stream_eq rg pieces ctx Ht Hs)|].
  simpl.
  destruct (least_last_considered_key_spec
              (filter (full_page (maximum rg)) pieces)
              (last_key_in_range (key_range rg))) as (H1 & H2 & H3).
  split; [reflexivity|]. split; [exact H1|]. split.
  - intros rr Hin Hfull. apply H2. apply filter_In. auto.
  - destruct H3 as [H3 | (rr & Hin & H3)]; [now left|].
    right. exists rr. apply filter_In in Hin. tauto.
Qed.

(** C4.  In the multistore merge of a range read without terminal, the
    merged stream is made of the pairs of the pieces, in order, whose key is
    not past the merged [last_considered_key]: every pair it holds has a key
    less than or equal to that key, and the pairs with a larger key are left
    out. *)
Theorem multistore_stream_up_to_last_considered_key (rg : rget_read_t)
    (pieces : list rget_read_response_t) (ctx : context_t) :
  terminal rg = None ->
  Forall holds_stream pieces ->
  exists merged stream,
    multistore_unshard (read_rget rg) (map response_rget pieces) ctx
    = Ok (response_rget merged)
    /\ result merged = result_stream stream
    /\ stream = flat_map (up_to (last_considered_key merged)) pieces
    /\ Forall (fun jt => key_le (fst jt) (last_considered_key merged) = true) stream
    /\ (forall rr jt, In rr pieces -> In jt (stream_of rr) ->
          key_le (fst jt) (last_considered_key merged) = false -> ~ In jt stream).
Proof.
  intros Ht Hs. eexists. eexists.
  split; [apply (multistore_unshard_stream_eq rg pieces ctx Ht Hs)|].
  simpl. split; [reflexivity|]. split; [reflexivity|]. split.
  - apply Forall_forall. intros jt Hin. apply in_flat_map in Hin.
    destruct Hin as (rr & _ & Hin). unfold up_to in Hin.
    apply filter_In in Hin. tauto.
  - intros rr jt _ _ Hgt Hin. apply in_flat_map in Hin.
    destruct Hin as (rr' & _ & Hin). unfold up_to in Hin.
    apply filter_In in Hin. destruct Hin as [_ Hle]. congruence.
Qed.

Lemma full_page_0 (rr : rget_read_response_t) :
  full_page 0 rr = true <-> stream_of rr = [].
Proof.
  unfold full_page. destruct (stream_of rr); simpl; split; intros H;
    try reflexivity; try discriminate.
Qed.

(** C8, as the code has it.  In the multistore merge of a range read without
    terminal and with [maximum] 0, the pieces that enter the minimum are
    those with an empty stream: the merged [last_considered_key] is the least
    of their keys and the range's upper bound, and it is the range's upper
    bound when no piece has an empty stream. *)
Theorem multistore_last_considered_key_maximum_0 (rg : rget_read_t)
    (pieces : list rget_read_response_t) (ctx : context_t) :
  terminal rg = None ->
  maximum rg = 0%N ->
  Forall holds_stream pieces ->
  exists merged,
    multistore_unshard (read_rget rg) (map response_rget pieces) ctx
    = Ok (response_rget merged)
    /\ last_considered_key merged
       = least_last_considered_key (last_key_in_range (key_range rg))
           (filter (fun rr => match stream_of rr with [] => true | _ => false end)
                   pieces)
    /\ (Forall (fun rr => stream_of rr <> []) pieces ->
        last_considered_key merged = last_key_in_range (key_range rg)).
Proof.
  intros Ht Hmax Hs. eexists.
  split; [apply (multistore_unshard_stream_eq rg pieces ctx Ht Hs)|].
  simpl. rewrite Hmax.
  assert (Hf : filter (full_page 0) pieces
               = filter (fun rr => match stream_of rr with [] => true | _ => false end)
                        pieces).
  { apply filter_ext. intros rr. unfold full_page.
    destruct (stream_of rr); reflexivity. }
  rewrite Hf. split; [reflexivity|].
  intros Hne.
  replace (filter _ pieces) with (@nil rget_read_response_t); [reflexivity|].
  symmetry. clear -Hne. induction Hne as [|rr l Hrr _ IH]; simpl; [reflexivity|].
  destruct (stream_of rr); [congruence|exact IH].
Qed.

(** ** The multistore merge of distributions *)

Lemma sum_counts_nonneg (m : key_counts_t) :
  Forall (fun it => 0 <= snd it) m -> 0 <= sum_counts m.
Proof. induction 1; simpl; lia. Qed.

Lemma total_counts_nonneg (l : list distribution_read_response_t) :
  Forall counts_keys l -> 0 <= total_counts l.
Proof.
  induction 1 as [|d l Hd _ IH]; simpl; [lia|].
  pose proof (sum_counts_nonneg _ Hd). lia.
Qed.

Lemma total_counts_app (l1 l2 : list distribution_read_response_t) :
  total_counts (l1 ++ l2) = total_counts l1 + total_counts l2.
Proof. induction l1; simpl; lia. Qed.

(** The [int64_t] accumulator of a piece holds the exact sum when the
    counts are counts of keys and the sum fits. *)
Lemma tmp_total_keys_loop (m : key_counts_t) (acc : Z) :
  Forall (fun it => 0 <= snd it) m ->
  0 <= acc -> acc + sum_counts m < 2 ^ 63 ->
  fold_left (fun acc it => int64 (acc + snd it)) m acc = acc + sum_counts m.
Proof.
  intros Hm. revert acc.
  induction Hm as [|it m Hit Hm IH]; intros acc Hacc Hfit; simpl in *; [lia|].
  pose proof (sum_counts_nonneg _ Hm).
  rewrite int64_small by lia. rewrite IH; lia.
Qed.

Lemma tmp_total_keys_exact (m : key_counts_t) :
  Forall (fun it => 0 <= snd it) m -> sum_counts m < 2 ^ 63 ->
  tmp_total_keys m = sum_counts m.
Proof.
  intros Hm Hfit. unfold tmp_total_keys.
  rewrite tmp_total_keys_loop; auto; lia.
Qed.

(** The piece the loop leaves in the response: each piece with strictly
    more keys than the one held replaces it. *)
Lemma select_piece_loop (l : list distribution_read_response_t)
    (tot : Z) (cur : key_counts_t) :
  Forall counts_keys l ->
  0 <= tot -> tot + total_counts l < 2 ^ 63 ->
  exists sel,
    for_each consider_piece (map response_distribution l) (tot, sum_counts cur, cur)
    = Ok (tot + total_counts l, sum_counts sel, sel)
    /\ ((sel = cur
         /\ forall d, In d l -> (List.length (key_counts d) <= List.length cur)%nat)
        \/ exists l1 d l2,
             l = (l1 ++ d :: l2)%list /\ sel = key_counts d
             /\ (List.length cur < List.length sel)%nat
             /\ (forall p, In p l1 ->
                   (List.length (key_counts p) < List.length sel)%nat)
             /\ (forall p, In p l2 ->
                   (List.length (key_counts p) <= List.length sel)%nat)).
Proof.
  intros Hl. revert tot cur.
  induction Hl as [|d l Hd Hl IH]; intros tot cur Htot Hfit.
  - exists cur. simpl. rewrite Z.add_0_r. split; [reflexivity|].
    left. split; [reflexivity|intros d []].
  - cbn [map for_each]. unfold consider_piece at 1.
    cbn [get_distribution_read_response deref bind].
    change (total_counts (d :: l))
      with (sum_counts (key_counts d) + total_counts l) in *.
    pose proof (sum_counts_nonneg _ Hd) as Hd0.
    pose proof (total_counts_nonneg _ Hl) as Hl0.
    rewrite tmp_total_keys_exact by (auto; lia).
    rewrite int64_small by lia.
    unfold map_size.
    destruct (N.ltb_spec (N.of_nat (List.length cur))
                         (N.of_nat (List.length (key_counts d)))) as [Hlt | Hge];
      cbn [bind].
    + destruct (IH (tot + sum_counts (key_counts d)) (key_counts d))
        as (sel & Heq & Hsel); try lia.
      exists sel. split.
      { rewrite Heq, Z.add_assoc. reflexivity. }
      right. destruct Hsel as [[-> Hall] | (l1 & d' & l2 & -> & -> & Hlen & H1 & H2)].
      * exists [], d, l. repeat split; auto; try lia. intros p [].
      * exists (d :: l1), d', l2. repeat split; auto; try lia.
        intros p [<- | Hin]; [lia|auto].
    + destruct (IH (tot + sum_counts (key_counts d)) cur)
        as (sel & Heq & Hsel); try lia.
      exists sel. split.
      { rewrite Heq, Z.add_assoc. reflexivity. }
      destruct Hsel as [[-> Hall] | (l1 & d' & l2 & -> & -> & Hlen & H1 & H2)].
      * left. split; [reflexivity|]. intros p [<- | Hin]; [lia|auto].
      * right. exists (d :: l1), d', l2. repeat split; auto.
        intros p [<- | Hin]; [lia|auto].
Qed.

(** The selected piece is one of the pieces, or empty: its sum is at most
    the sum over all pieces. *)
Lemma select_piece_eq (pieces : list distribution_read_response_t) :
  Forall counts_keys pieces ->
  total_counts pieces < 2 ^ 63 ->
  exists sel,
    select_piece (map response_distribution pieces)
    = Ok (total_counts pieces, sum_counts sel, sel)
    /\ 0 <= sum_counts sel <= total_counts pieces
    /\ ((sel = [] /\ forall d, In d pieces -> key_counts d = [])
        \/ exists l1 d l2,
             pieces = (l1 ++ d :: l2)%list /\ sel = key_counts d
             /\ (forall p, In p l1 ->
                   (List.length (key_counts p) < List.length sel)%nat)
             /\ (forall p, In p l2 ->
                   (List.length (key_counts p) <= List.length sel)%nat)).
Proof.
  intros Hc Hfit.
  destruct (select_piece_loop pieces 0 [] Hc) as (sel & Heq & Hsel); try lia.
  exists sel. split; [exact Heq|].
  destruct Hsel as [[-> Hall] | (l1 & d & l2 & -> & -> & Hlen & H1 & H2)].
  - split; [simpl; pose proof (total_counts_nonneg _ Hc); lia|].
    left. split; [reflexivity|]. intros d Hin. specialize (Hall d Hin).
    destruct (key_counts d); [reflexivity|simpl in Hall; lia].
  - split.
    + rewrite total_counts_app. simpl.
      apply Forall_app in Hc. destruct Hc as [Hc1 Hc2].
      inversion Hc2 as [|? ? Hd Hc3]; subst.
      pose proof (total_counts_nonneg _ Hc1).
      pose proof (total_counts_nonneg _ Hc3).
      pose proof (sum_counts_nonneg _ Hd). lia.
    + right. exists l1, d, l2. auto.
Qed.

(** C7.  In the multistore merge of distributions, over pieces that count
    keys and whose counts fit the [int64_t] sums, [total_num_keys] is the sum
    of all counts, [total_keys_in_res] the sum of the selected piece, and the
    first is at least the second; when [total_keys_in_res] is not zero it is
    positive, so that the exact quotient
    [total_num_keys / total_keys_in_res] is at least 1. *)
Theorem multistore_distribution_total_ge_selected
    (pieces : list distribution_read_response_t) :
  Forall counts_keys pieces ->
  total_counts pieces < 2 ^ 63 ->
  exists total_num_keys total_keys_in_res response,
    select_piece (map response_distribution pieces)
    = Ok (total_num_keys, total_keys_in_res, response)
    /\ total_num_keys = total_counts pieces
    /\ total_keys_in_res = sum_counts response
    /\ total_keys_in_res <= total_num_keys
    /\ (total_keys_in_res <> 0 ->
        0 < total_keys_in_res /\ 1 * total_keys_in_res <= total_num_keys).
Proof.
  intros Hc Hfit.
  destruct (select_piece_eq pieces Hc Hfit) as (sel & Heq & Hle & _).
  exists (total_counts pieces), (sum_counts sel), sel.
  repeat split; auto; lia.
Qed.

(** The scaling loop returns a map exactly when every product is an [int];
    the map holds the scaled counts under the same keys. *)
Lemma scale_counts_loop (scale_factor : double) (m done r : key_counts_t) :
  for_each (scale_count scale_factor) m done = Ok r
  <-> exists m', r = (done ++ m')%list /\ Forall2 (scaled scale_factor) m m'.
Proof.
  revert done r. induction m as [|it m IH]; intros done r; cbn [for_each].
  - split.
    + intros [= <-]. exists []. rewrite app_nil_r. auto.
    + intros (m' & -> & H). inversion H. now rewrite app_nil_r.
  - unfold scale_count at 1.
    destruct (int_of_double (double_mul (double_of_Z (snd it)) scale_factor))
      as [v | e | ] eqn:E; cbn [bind].
    + rewrite IH. split.
      * intros (m' & -> & H). exists ((fst it, v) :: m').
        rewrite <- app_assoc. split; [reflexivity|].
        constructor; [split; [reflexivity|exact E]|exact H].
      * intros (m' & -> & H). inversion H as [|? it' ? m'' [Hk Hv] Hrest]; subst.
        exists m''. split; [|exact Hrest].
        rewrite <- app_assoc. simpl. f_equal. f_equal.
        destruct it' as [k' v']. simpl in *. subst k'.
        rewrite E in Hv. now injection Hv as ->.
    + split; [discriminate|].
      intros (m' & -> & H). inversion H as [|? it' ? m'' [Hk Hv] Hrest]; subst.
      rewrite E in Hv. discriminate.
    + split; [discriminate|].
      intros (m' & -> & H). inversion H as [|? it' ? m'' [Hk Hv] Hrest]; subst.
      rewrite E in Hv. discriminate.
Qed.

Lemma scale_counts_Ok (scale_factor : double) (m r : key_counts_t) :
  scale_counts scale_factor m = Ok r <-> Forall2 (scaled scale_factor) m r.
Proof.
  unfold scale_counts. rewrite scale_counts_loop. simpl. split.
  - intros (m' & -> & H). exact H.
  - intros H. exists r. auto.
Qed.

(** The multistore merge of distributions once its assertions hold: the
    selected piece as it is when its sum is zero, its counts scaled
    otherwise. *)
Lemma multistore_unshard_distribution_eq (dg : distribution_read_t)
    (pieces : list distribution_read_response_t) (ctx : context_t)
    (total_num_keys total_keys_in_res : Z) (response : key_counts_t) :
  (2 <= List.length pieces)%nat ->
  same_first_key (map response_distribution pieces) = Ok true ->
  select_piece (map response_distribution pieces)
  = Ok (total_num_keys, total_keys_in_res, response) ->
  multistore_unshard (read_distribution dg) (map response_distribution pieces) ctx
  = if total_keys_in_res =? 0
    then Ok (response_distribution {| key_counts := response |})
    else
      let scale_factor :=
        double_div (double_of_Z total_num_keys) (double_of_Z total_keys_in_res) in
      rassert (double_ge scale_factor (double_of_Z 1)) ;;;
      response <- scale_counts scale_factor response ;;
      Ok (response_distribution {| key_counts := response |}).
Proof.
  intros Hlen Hsame Hsel.
  cbn [multistore_unshard]. unfold multistore_unshard_distribution.
  rewrite Hsame, Hsel.
  destruct pieces as [|d0 [|d1 rest]]; simpl in Hlen; try lia.
  reflexivity.
Qed.

(** C2, as the code has it.  In the multistore merge of distributions over
    at least two pieces that start with the same key, the piece selected is
    the first one with the largest number of keys; [total_num_keys] is the
    sum of all counts and [total_keys_in_res] the sum of the selected piece.
    When [total_keys_in_res] is 0 the selected piece is returned as it is;
    otherwise the merged map has the keys of the selected piece and each
    count multiplied, in double precision, by
    [total_num_keys / total_keys_in_res] and truncated to an [int]. *)
Theorem multistore_distribution_scales_largest_piece
    (dg : distribution_read_t) (pieces : list distribution_read_response_t)
    (ctx : context_t) :
  (2 <= List.length pieces)%nat ->
  same_first_key (map response_distribution pieces) = Ok true ->
  Forall counts_keys pieces ->
  total_counts pieces < 2 ^ 63 ->
  exists l1 selected l2,
    pieces = (l1 ++ selected :: l2)%list
    /\ (forall p, In p l1 ->
          (List.length (key_counts p) < List.length (key_counts selected))%nat)
    /\ (forall p, In p l2 ->
          (List.length (key_counts p) <= List.length (key_counts selected))%nat)
    /\ let total_num_keys := total_counts pieces in
       let total_keys_in_res := sum_counts (key_counts selected) in
       let scale_factor :=
         double_div (double_of_Z total_num_keys) (double_of_Z total_keys_in_res) in
       (total_keys_in_res = 0 ->
        multistore_unshard (read_distribution dg)
          (map response_distribution pieces) ctx
        = Ok (response_distribution selected))
       /\ (total_keys_in_res <> 0 ->
           forall merged,
             multistore_unshard (read_distribution dg)
               (map response_distribution pieces) ctx
             = Ok (response_distribution merged)
             <-> double_ge scale_factor (double_of_Z 1) = true
                 /\ Forall2 (scaled scale_factor)
                      (key_counts selected) (key_counts merged)).
Proof.
  intros Hlen Hsame Hc Hfit.
  destruct (select_piece_eq pieces Hc Hfit) as (sel & Heq & Hle & Hsel).
  pose proof (multistore_unshard_distribution_eq dg pieces ctx _ _ _
                Hlen Hsame Heq) as Hrun.
  assert (Hd0 : exists d0 rest, pieces = d0 :: rest /\ key_counts d0 <> []).
  { destruct pieces as [|d0 [|d1 rest]]; simpl in Hlen; try lia.
    exists d0, (d1 :: rest). split; [reflexivity|]. intros E.
    unfold same_first_key in Hsame. simpl in Hsame. rewrite E in Hsame.
    discriminate. }
  destruct Hd0 as (d0 & rest & Hp0 & Hd0).
  destruct Hsel as [[-> Hall] | (l1 & d & l2 & Hp & -> & H1 & H2)].
  { exfalso. apply Hd0. apply Hall. rewrite Hp0. now left. }
  exists l1, d, l2. split; [exact Hp|]. split; [exact H1|]. split; [exact H2|].
  cbv zeta. split.
  - intros Hz. rewrite Hrun, Hz. destruct d; reflexivity.
  - intros Hnz merged. rewrite Hrun.
    replace (sum_counts (key_counts d) =? 0) with false
      by (symmetry; apply Z.eqb_neq; exact Hnz).
    cbv zeta.
    destruct (double_ge _ (double_of_Z 1)); cbn [rassert bind].
    + rewrite <- scale_counts_Ok.
      destruct (scale_counts _ (key_counts d)) as [r | e | ]; cbn [bind].
      * split.
        -- intros [= <-]. auto.
        -- intros [_ [= ->]]. destruct merged; reflexivity.
      * split; [discriminate|intros [_ H]; discriminate].
      * split; [discriminate|intros [_ H]; discriminate].
    + split; [discriminate|intros [H _]; discriminate].
Qed.

End Properties.

(** * The statements on the sample instance *)

Local Open Scope string_scope.
#[local] Existing Instance Sample.externals.

Lemma sample_is_superset_refl (r : region_t) : Sample.is_superset r r = true.
Proof.
  unfold Sample.is_superset.
  rewrite !Z.leb_refl, key_le_refl. simpl.
  destruct (kr_right (inner r)); simpl; auto using key_le_refl.
Qed.

Lemma shard_get_region_witness :
  (forall r, @region_is_superset Sample.externals r r = true)
  /\ shard (read_rget (Sample.rget 10 None))
           (get_region (read_rget (Sample.rget 10 None)))
     = Ok (read_rget (Sample.rget 10 None)).
Proof.
  split; [exact sample_is_superset_refl|].
  apply (@shard_get_region Sample.externals). exact sample_is_superset_refl.
Defined.

Lemma cpu_sharding_subspace_partition_witness :
  (0 <= @HASH_REGION_HASH_SIZE Sample.externals < 2 ^ 64)%Z
  /\ (1 <= 3 <= INT_MAX)%Z
  /\ forall h : Z,
       (0 <= h < @HASH_REGION_HASH_SIZE Sample.externals)%Z <->
       exists i r, @cpu_sharding_subspace Sample.externals i 3 = Ok r
                   /\ hash_in_region h r = true.
Proof.
  assert (H1 : (0 <= @HASH_REGION_HASH_SIZE Sample.externals < 2 ^ 64)%Z)
    by (simpl; lia).
  assert (H2 : (1 <= 3 <= INT_MAX)%Z) by (unfold INT_MAX; lia).
  split; [exact H1|]. split; [exact H2|].
  apply (@cpu_sharding_subspace_partition Sample.externals 3 H1 H2).
Defined.

Lemma unshard_surfaces_runtime_exc_witness :
  Forall (@no_runtime_exc Sample.externals) [response_rget Sample.page_a]
  /\ result Sample.page_exc = result_exc Sample.division_by_zero
  /\ exists merged,
       unshard (read_rget (Sample.rget 10 None))
         ([response_rget Sample.page_a]
          ++ response_rget Sample.page_exc
             :: [response_rget Sample.page_bq; Sample.counts []]) tt
       = Ok (response_rget merged)
       /\ multistore_unshard (read_rget (Sample.rget 10 None))
            ([response_rget Sample.page_a]
             ++ response_rget Sample.page_exc
                :: [response_rget Sample.page_bq; Sample.counts []]) tt
          = Ok (response_rget merged)
       /\ result merged = result_exc Sample.division_by_zero
       /\ truncated merged = false
       /\ rr_key_range merged = key_range (Sample.rget 10 None)
       /\ last_considered_key merged = kr_left (key_range (Sample.rget 10 None)).
Proof.
  assert (H1 : Forall (@no_runtime_exc Sample.externals)
                 [response_rget Sample.page_a]).
  { repeat constructor. exists Sample.page_a. split; reflexivity. }
  split; [exact H1|]. split; [reflexivity|].
  apply (@unshard_surfaces_runtime_exc Sample.externals (Sample.rget 10 None)
           [response_rget Sample.page_a]
           [response_rget Sample.page_bq; Sample.counts []]
           Sample.page_exc Sample.division_by_zero tt H1).
  reflexivity.
Defined.

(** C3 on the example of the specification: pieces of length 3 and 4 under
    a [Length] terminal.  Neither merger returns a response. *)
Lemma length_3_4_crashes :
  unshard (read_rget (Sample.rget 10 (Some terminal_length)))
    [Sample.piece (result_length {| l_length := 3 |}) "a";
     Sample.piece (result_length {| l_length := 4 |}) "b"] tt
  = Crash
  /\ multistore_unshard (read_rget (Sample.rget 10 (Some terminal_length)))
       [Sample.piece (result_length {| l_length := 3 |}) "a";
        Sample.piece (result_length {| l_length := 4 |}) "b"] tt
     = Crash.
Proof. split; reflexivity. Qed.

Lemma sample_pages_hold_streams :
  Forall (@holds_stream Sample.externals)
    [Sample.page_a; Sample.page_bq; Sample.page_empty].
Proof. repeat constructor; eexists; reflexivity. Qed.

Lemma multistore_last_considered_key_is_minimum_witness :
  terminal (Sample.rget 2 None) = None
  /\ Forall (@holds_stream Sample.externals)
       [Sample.page_a; Sample.page_bq; Sample.page_empty]
  /\ exists merged,
       multistore_unshard (read_rget (Sample.rget 2 None))
         (map response_rget [Sample.page_a; Sample.page_bq; Sample.page_empty]) tt
       = Ok (response_rget merged)
       /\ last_considered_key merged
          = least_last_considered_key
              (last_key_in_range (key_range (Sample.rget 2 None)))
              (filter (full_page (maximum (Sample.rget 2 None)))
                 [Sample.page_a; Sample.page_bq; Sample.page_empty])
       /\ key_le (last_considered_key merged)
            (last_key_in_range (key_range (Sample.rget 2 None))) = true
       /\ (forall rr,
             In rr [Sample.page_a; Sample.page_bq; Sample.page_empty] ->
             full_page (maximum (Sample.rget 2 None)) rr = true ->
             key_le (last_considered_key merged) (last_considered_key rr) = true)
       /\ (last_considered_key merged
           = last_key_in_range (key_range (Sample.rget 2 None))
           \/ exists rr,
                In rr [Sample.page_a; Sample.page_bq; Sample.page_empty]
                /\ full_page (maximum (Sample.rget 2 None)) rr = true
                /\ last_considered_key merged = last_considered_key rr).
Proof.
  split; [reflexivity|]. split; [exact sample_pages_hold_streams|].
  apply (@multistore_last_considered_key_is_minimum Sample.externals
           (Sample.rget 2 None)
           [Sample.page_a; Sample.page_bq; Sample.page_empty] tt
           eq_refl sample_pages_hold_streams).
Defined.

Lemma multistore_stream_up_to_last_considered_key_witness :
  terminal (Sample.rget 1 None) = None
  /\ Forall (@holds_stream Sample.externals)
       [Sample.page_a; Sample.page_bq; Sample.page_empty]
  /\ exists merged stream,
       multistore_unshard (read_rget (Sample.rget 1 None))
         (map response_rget [Sample.page_a; Sample.page_bq; Sample.page_empty]) tt
       = Ok (response_rget merged)
       /\ result merged = result_stream stream
       /\ stream = flat_map (up_to (last_considered_key merged))
                     [Sample.page_a; Sample.page_bq; Sample.page_empty]
       /\ Forall (fun jt => key_le (fst jt) (last_considered_key merged) = true)
            stream
       /\ (forall rr jt,
             In rr [Sample.page_a; Sample.page_bq; Sample.page_empty] ->
             In jt (stream_of rr) ->
             key_le (fst jt) (last_considered_key merged) = false ->
             ~ In jt stream).
Proof.
  split; [reflexivity|]. split; [exact sample_pages_hold_streams|].
  apply (@multistore_stream_up_to_last_considered_key Sample.externals
           (Sample.rget 1 None)
           [Sample.page_a; Sample.page_bq; Sample.page_empty] tt
           eq_refl sample_pages_hold_streams).
Defined.

(** C8 as the specification states it fails on a piece with an empty
    stream: with [maximum] 0 that piece is a full page, and its key ["a"]
    replaces the upper bound ["z"] of the range. *)
Lemma maximum_0_empty_piece_lowers_key :
  multistore_unshard (read_rget (Sample.rget 0 None))
    [response_rget Sample.page_empty; response_rget Sample.page_bq] tt
  = Ok (response_rget
          {| result := result_stream [];
             truncated := true;
             rr_key_range := key_range_closed "a" "z";
             last_considered_key := "a" |})
  /\ @last_key_in_range Sample.externals (key_range (Sample.rget 0 None)) = "z"
  /\ "a" <> "z".
Proof. split; [reflexivity|]. split; [reflexivity|discriminate]. Qed.

Lemma multistore_last_considered_key_maximum_0_witness :
  terminal (Sample.rget 0 None) = None
  /\ maximum (Sample.rget 0 None) = 0%N
  /\ Forall (@holds_stream Sample.externals) [Sample.page_a; Sample.page_bq]
  /\ exists merged,
       multistore_unshard (read_rget (Sample.rget 0 None))
         (map response_rget [Sample.page_a; Sample.page_bq]) tt
       = Ok (response_rget merged)
       /\ last_considered_key merged
          = least_last_considered_key
              (last_key_in_range (key_range (Sample.rget 0 None)))
              (filter (fun rr => match stream_of rr with
                                 | [] => true
                                 | _ => false
                                 end)
                      [Sample.page_a; Sample.page_bq])
       /\ (Forall (fun rr => stream_of rr <> []) [Sample.page_a; Sample.page_bq] ->
           last_considered_key merged
           = last_key_in_range (key_range (Sample.rget 0 None))).
Proof.
  assert (H : Forall (@holds_stream Sample.externals)
                [Sample.page_a; Sample.page_bq])
    by (repeat constructor; eexists; reflexivity).
  split; [reflexivity|]. split; [reflexivity|]. split; [exact H|].
  apply (@multistore_last_considered_key_maximum_0 Sample.externals
           (Sample.rget 0 None) [Sample.page_a; Sample.page_bq] tt
           eq_refl eq_refl H).
Defined.

(** C2 as the specification states it fails on its own example: the piece
    selected is the one with three keys, not the one with two, in either
    order of the pieces, and the merged counts are 43 each, not 52 and 78. *)
Lemma distribution_example_selects_larger_piece :
  multistore_unshard Sample.distribution
    [response_distribution Sample.counts_abc;
     response_distribution Sample.counts_ab] tt
  = Ok (Sample.counts [("a", 43%Z); ("b", 43%Z); ("c", 43%Z)])
  /\ multistore_unshard Sample.distribution
       [response_distribution Sample.counts_ab;
        response_distribution Sample.counts_abc] tt
     = Ok (Sample.counts [("a", 43%Z); ("b", 43%Z); ("c", 43%Z)])
  /\ Sample.counts [("a", 43%Z); ("b", 43%Z); ("c", 43%Z)]
     <> Sample.counts [("a", 52%Z); ("b", 78%Z)].
Proof.
  split; [vm_compute; reflexivity|].
  split; [vm_compute; reflexivity|discriminate].
Qed.

Lemma sample_counts_count_keys :
  Forall counts_keys [Sample.counts_abc; Sample.counts_ab].
Proof. repeat constructor; simpl; lia. Qed.

Lemma multistore_distribution_total_ge_selected_witness :
  Forall counts_keys [Sample.counts_abc; Sample.counts_ab]
  /\ (total_counts [Sample.counts_abc; Sample.counts_ab] < 2 ^ 63)%Z
  /\ exists total_num_keys total_keys_in_res response,
       select_piece
         (map response_distribution [Sample.counts_abc; Sample.counts_ab])
       = Ok (total_num_keys, total_keys_in_res, response)
       /\ total_num_keys = total_counts [Sample.counts_abc; Sample.counts_ab]
       /\ total_keys_in_res = sum_counts response
       /\ (total_keys_in_res <= total_num_keys)%Z
       /\ (total_keys_in_res <> 0%Z ->
           (0 < total_keys_in_res)%Z
           /\ (1 * total_keys_in_res <= total_num_keys)%Z).
Proof.
  assert (H : (total_counts [Sample.counts_abc; Sample.counts_ab] < 2 ^ 63)%Z)
    by (simpl; lia).
  split; [exact sample_counts_count_keys|]. split; [exact H|].
  apply (@multistore_distribution_total_ge_selected Sample.externals
           [Sample.counts_abc; Sample.counts_ab] sample_counts_count_keys H).
Defined.

Lemma multistore_distribution_scales_largest_piece_witness :
  (2 <= List.length [Sample.counts_abc; Sample.counts_ab])%nat
  /\ same_first_key
       (map response_distribution [Sample.counts_abc; Sample.counts_ab])
     = Ok true
  /\ Forall counts_keys [Sample.counts_abc; Sample.counts_ab]
  /\ (total_counts [Sample.counts_abc; Sample.counts_ab] < 2 ^ 63)%Z
  /\ exists l1 selected l2,
       [Sample.counts_abc; Sample.counts_ab] = (l1 ++ selected :: l2)%list
       /\ (forall p, In p l1 ->
             (List.length (key_counts p) < List.length (key_counts selected))%nat)
       /\ (forall p, In p l2 ->
             (List.length (key_counts p) <= List.length (key_counts selected))%nat)
       /\ let total_num_keys :=
            total_counts [Sample.counts_abc; Sample.counts_ab] in
          let total_keys_in_res := sum_counts (key_counts selected) in
          let scale_factor :=
            double_div (double_of_Z total_num_keys)
                       (double_of_Z total_keys_in_res) in
          (total_keys_in_res = 0%Z ->
           multistore_unshard Sample.distribution
             (map response_distribution [Sample.counts_abc; Sample.counts_ab]) tt
           = Ok (response_distribution selected))
          /\ (total_keys_in_res <> 0%Z ->
              forall merged,
                multistore_unshard Sample.distribution
                  (map response_distribution
                     [Sample.counts_abc; Sample.counts_ab]) tt
                = Ok (response_distribution merged)
                <-> double_ge scale_factor (double_of_Z 1) = true
                    /\ Forall2 (scaled scale_factor)
                         (key_counts selected) (key_counts merged)).
Proof.
  assert (H1 : (2 <= List.length [Sample.counts_abc; Sample.counts_ab])%nat)
    by (simpl; lia).
  assert (H2 : same_first_key
                 (map response_distribution [Sample.counts_abc; Sample.counts_ab])
               = Ok true) by reflexivity.
  assert (H4 : (total_counts [Sample.counts_abc; Sample.counts_ab] < 2 ^ 63)%Z)
    by (simpl; lia).
  split; [exact H1|]. split; [exact H2|].
  split; [exact sample_counts_count_keys|]. split; [exact H4|].
  apply (@multistore_distribution_scales_largest_piece Sample.externals
           {| max_depth := 2; range := key_range_closed "a" "z" |}
           [Sample.counts_abc; Sample.counts_ab] tt
           H1 H2 sample_counts_count_keys H4).
Defined.

(** ** Scenarios of the specification on the sample instance *)

(** Two hash shards hold [a] and [b]; neither reaches the maximum of 10, so
    the merged key is the upper bound of the range. *)
Example scenario_two_hash_shards :
  multistore_unshard (read_rget (Sample.rget 10 None))
    [Sample.piece (result_stream [("a", Some 1%Z)]) "a";
     Sample.piece (result_stream [("b", Some 2%Z)]) "b"] tt
  = Ok (response_rget
          {| result := result_stream [("a", Some 1%Z); ("b", Some 2%Z)];
             truncated := false;
             rr_key_range := key_range_closed "a" "z";
             last_considered_key := "z" |}).
Proof. reflexivity. Qed.

(** A grouped map-reduce with base 0 and body [var1 + var2]. *)
Example scenario_grouped_map_reduce :
  unshard
    (read_rget
       (Sample.rget 10
          (Some (terminal_gmr
                   {| group_mapping := Sample.t_num 0;
                      value_mapping := Sample.t_num 0;
                      reduction :=
                        {| base := Sample.t_num 0;
                           var1 := "acc"; var2 := "val";
                           body := Sample.t_add (Sample.t_var "acc")
                                                (Sample.t_var "val") |} |}))))
    [Sample.piece (result_groups [(Some 1%Z, Some 2%Z); (Some 2%Z, Some 5%Z)]) "a";
     Sample.piece (result_groups [(Some 1%Z, Some 3%Z); (Some 3%Z, Some 1%Z)]) "a"] tt
  = Ok (Sample.piece
          (result_groups [(Some 1%Z, Some 5%Z); (Some 2%Z, Some 5%Z);
                          (Some 3%Z, Some 1%Z)]) "a").
Proof. reflexivity. Qed.

(** When the piece with two keys is not the smaller one the numbers of the
    specification's distribution example come out: 40 and 60 scaled by
    130/100. *)
Example scenario_distribution_two_keys_largest :
  multistore_unshard Sample.distribution
    [response_distribution Sample.counts_ab;
     Sample.counts [("a", 30%Z)]] tt
  = Ok (Sample.counts [("a", 52%Z); ("b", 78%Z)]).
Proof. vm_compute. reflexivity. Qed.

(** * Further properties *)

Local Open Scope Z_scope.

(** ** Exceptions *)

Lemma no_throw_Ok {A : Type} (a : A) : no_throw (Ok a).
Proof. intros e. discriminate. Qed.

Lemma no_throw_Crash {A : Type} : no_throw (@Crash A).
Proof. intros e. discriminate. Qed.

Lemma no_throw_rassert (c : bool) : no_throw (rassert c).
Proof. intros e. destruct c; discriminate. Qed.

Lemma no_throw_deref {A : Type} (p : option A) : no_throw (deref p).
Proof. intros e. destruct p; discriminate. Qed.

Lemma no_throw_bind {A B : Type} (m : outcome A) (k : A -> outcome B) :
  no_throw m -> (forall a, no_throw (k a)) -> no_throw (bind m k).
Proof.
  intros Hm Hk e. destruct m as [a | e' | ]; simpl.
  - apply Hk.
  - destruct (Hm e' eq_refl).
  - discriminate.
Qed.

Lemma no_throw_for_each {A S : Type} (f : S -> A -> outcome S) (l : list A) (s : S) :
  (forall s a, no_throw (f s a)) -> no_throw (for_each f l s).
Proof.
  intros Hf. revert s. induction l as [|a l IH]; intros s; simpl.
  - apply no_throw_Ok.
  - apply no_throw_bind; auto.
Qed.

Lemma no_throw_try_catch {A : Type} (m : outcome A) (h : runtime_exc_t -> outcome A) :
  (forall e, no_throw (h e)) -> no_throw (try_catch m h).
Proof.
  intros Hh e. destruct m as [a | e' | ]; simpl; try discriminate. apply Hh.
Qed.

Lemma no_throw_if {A : Type} (c : bool) (m1 m2 : outcome A) :
  no_throw m1 -> no_throw m2 -> no_throw (if c then m1 else m2).
Proof. destruct c; auto. Qed.

Ltac no_throw :=
  repeat first
    [ apply no_throw_Ok | apply no_throw_Crash | apply no_throw_rassert
    | apply no_throw_deref | apply no_throw_try_catch; intros
    | apply no_throw_for_each; intros
    | apply no_throw_bind; [ | intros ]
    | apply no_throw_if ].

Section MoreProperties.

Context {ext : Externals}.

Lemma no_throw_begin_first (m : key_counts_t) : no_throw (begin_first m).
Proof. destruct m as [|[k v] m]; no_throw. Qed.

Lemma no_throw_int_of_double (d : double) : no_throw (int_of_double d).
Proof.
  unfold int_of_double. destruct (trunc_double d); no_throw.
Qed.

Lemma no_throw_unshard_point (responses : list read_response_t) :
  no_throw (unshard_point responses).
Proof. unfold unshard_point. no_throw. Qed.

Lemma no_throw_unshard_distribution (responses : list read_response_t) :
  no_throw (unshard_distribution responses).
Proof.
  unfold unshard_distribution, distribution_preamble, same_first_key.
  no_throw; apply no_throw_begin_first.
Qed.

Lemma no_throw_select_piece (responses : list read_response_t) :
  no_throw (select_piece responses).
Proof.
  unfold select_piece. apply no_throw_for_each. intros [[t r] c] i.
  unfold consider_piece. no_throw.
Qed.

Lemma no_throw_scale_counts (scale_factor : double) (m : key_counts_t) :
  no_throw (scale_counts scale_factor m).
Proof.
  unfold scale_counts. apply no_throw_for_each. intros done it.
  unfold scale_count. no_throw. apply no_throw_int_of_double.
Qed.

Lemma no_throw_multistore_unshard_distribution (responses : list read_response_t) :
  no_throw (multistore_unshard_distribution responses).
Proof.
  unfold multistore_unshard_distribution.
  apply no_throw_bind; [unfold distribution_preamble; no_throw | intros _].
  apply no_throw_bind; [no_throw | intros _].
  apply no_throw_bind;
    [unfold same_first_key; no_throw; apply no_throw_begin_first | intros same].
  apply no_throw_bind; [no_throw | intros _].
  apply no_throw_bind; [no_throw | intros _].
  apply no_throw_bind; [apply no_throw_select_piece | intros [[t r] c]].
  apply no_throw_if; [no_throw|].
  apply no_throw_bind; [no_throw | intros _].
  apply no_throw_bind; [apply no_throw_scale_counts | intros; no_throw].
Qed.

(** X1.  [read_t::unshard], [read_t::multistore_unshard],
    [write_t::unshard] and [write_t::multistore_unshard] are declared
    [THROWS_NOTHING]: whatever the read or write, the responses and the
    behaviour of [eval], no [runtime_exc_t] leaves them.  One raised by
    [eval] while merging is caught and stored: for a range read with a
    [Reduction] terminal over pieces without runtime error, when the base
    raises [e], or the base evaluates and the body raises [e] at the first
    piece, both mergers return a response whose result is [e], the other
    fields being as initialised. *)
Theorem unshard_throws_nothing (r : read_t) (responses : list read_response_t)
    (w : write_t) (write_responses : list write_response_t) (ctx : context_t) :
  (no_throw (unshard r responses ctx)
   /\ no_throw (multistore_unshard r responses ctx)
   /\ no_throw (write_unshard w write_responses ctx)
   /\ no_throw (write_multistore_unshard w write_responses ctx))
  /\ forall rg red e,
       r = read_rget rg ->
       terminal rg = Some (terminal_reduction red) ->
       Forall no_runtime_exc responses ->
       (eval (base red) (scopes rg) = Throw e
        \/ exists z rr rest,
             eval (base red) (scopes rg) = Ok z
             /\ responses = response_rget rr :: rest
             /\ holds_atom rr
             /\ eval (body red)
                  (put_in_scope (var2 red) (atom_of rr)
                     (put_in_scope (var1 red) z (new_val_scope (scopes rg))))
                = Throw e) ->
       exists merged,
         unshard r responses ctx = Ok (response_rget merged)
         /\ multistore_unshard r responses ctx = Ok (response_rget merged)
         /\ result merged = result_exc e
         /\ truncated merged = false
         /\ rr_key_range merged = key_range rg
         /\ last_considered_key merged = kr_left (key_range rg).
Proof.
  split.
  - split; [|split; [|split]].
    + destruct r; simpl.
      * apply no_throw_unshard_point.
      * unfold unshard_rget. no_throw.
      * apply no_throw_unshard_distribution.
    + destruct r; simpl.
      * apply no_throw_unshard_point.
      * unfold multistore_unshard_rget. no_throw.
      * apply no_throw_multistore_unshard_distribution.
    + unfold write_unshard. no_throw.
    + unfold write_multistore_unshard, write_unshard. no_throw.
  - intros rg red e -> Ht Hok Hcase.
    exists (set_result (initial_rget_response rg) (result_exc e)).
    cbn [unshard multistore_unshard].
    unfold unshard_rget, multistore_unshard_rget.
    rewrite Ht, (check_thrown_passes responses Hok).
    cbn [bind unshard_terminal]. unfold unshard_reduction.
    destruct Hcase as [Hb | (z & rr & rest & Hb & -> & [a Ha] & Hbody)];
      rewrite Hb; cbn [bind try_catch].
    + repeat split; reflexivity.
    + cbn [for_each get_rget_read_response deref bind].
      unfold atom_of in Hbody. rewrite Ha in *. cbn [get_atom deref bind].
      unfold reduce_step. cbn [fst snd bind]. rewrite Hbody.
      cbn [bind try_catch]. repeat split; reflexivity.
Qed.

(** ** The single-store merge of streams *)

Lemma fold_left_orb_existsb {A : Type} (f : A -> bool) (l : list A) (b : bool) :
  fold_left (fun t a => t || f a) l b = b || existsb f l.
Proof.
  revert b. induction l as [|a l IH]; intros b; simpl.
  - now rewrite orb_false_r.
  - rewrite IH. now rewrite orb_assoc.
Qed.

Lemma unshard_stream_loop (pieces : list rget_read_response_t)
    (rg_response : rget_read_response_t) (res_stream : stream_t) :
  Forall holds_stream pieces ->
  for_each (fun (st : rget_read_response_t * stream_t) i =>
              let '(rg_response, res_stream) := st in
              _rr <- deref (get_rget_read_response i) ;;
              stream <- deref (get_stream (result _rr)) ;;
              let res_stream := (res_stream ++ stream)%list in
              let rg_response := set_truncated rg_response
                                   (truncated rg_response || truncated _rr) in
              let rg_response :=
                if key_lt (last_considered_key rg_response) (last_considered_key _rr)
                then set_last_considered_key rg_response (last_considered_key _rr)
                else rg_response in
              Ok (rg_response, res_stream))
           (map response_rget pieces) (rg_response, res_stream)
  = Ok ({| result := result rg_response;
           truncated := truncated rg_response || some_truncated pieces;
           rr_key_range := rr_key_range rg_response;
           last_considered_key :=
             greatest_last_considered_key (last_considered_key rg_response) pieces |},
        (res_stream ++ flat_map stream_of pieces)%list).
Proof.
  intros Hs. revert rg_response res_stream.
  induction Hs as [|rr l Hrr _ IH]; intros rg_response res_stream.
  - cbn [map for_each flat_map]. unfold some_truncated. cbn [existsb].
    rewrite app_nil_r, orb_false_r. destruct rg_response; reflexivity.
  - cbn [map for_each].
    cbn [get_rget_read_response deref bind].
    rewrite (holds_stream_of rr Hrr). cbn [get_stream deref bind].
    change (last_considered_key
              (set_truncated rg_response (truncated rg_response || truncated rr)))
      with (last_considered_key rg_response).
    unfold greatest_last_considered_key, some_truncated.
    cbn [fold_left existsb flat_map]. unfold key_max at 2.
    rewrite app_assoc, orb_assoc.
    destruct (key_lt (last_considered_key rg_response) (last_considered_key rr));
      rewrite IH; reflexivity.
Qed.

(** The greatest key is above the start and above every key it was taken
    over, and it is one of them. *)
Lemma greatest_last_considered_key_spec (pieces : list rget_read_response_t)
    (start : store_key_t) :
  let lck := greatest_last_considered_key start pieces in
  key_le start lck = true
  /\ (forall rr, In rr pieces -> key_le (last_considered_key rr) lck = true)
  /\ (lck = start \/ exists rr, In rr pieces /\ lck = last_considered_key rr).
Proof.
  revert start. induction pieces as [|rr l IH]; intros start; simpl.
  - split; [apply key_le_refl|]. split; [intros rr []|now left].
  - destruct (IH (key_max start (last_considered_key rr))) as (H1 & H2 & H3).
    unfold greatest_last_considered_key in *. simpl.
    set (m := fold_left _ l _) in *.
    assert (Hmax : key_le start (key_max start (last_considered_key rr)) = true
                   /\ key_le (last_considered_key rr)
                        (key_max start (last_considered_key rr)) = true).
    { unfold key_max.
      destruct (key_lt start (last_considered_key rr)) eqn:E.
      - split; [now apply key_lt_le|apply key_le_refl].
      - split; [apply key_le_refl|now apply key_not_lt_le]. }
    destruct Hmax as [Hm1 Hm2].
    split; [eapply key_le_trans; eassumption|].
    split.
    + intros rr' [<- | Hin]; [eapply key_le_trans; eassumption|auto].
    + destruct H3 as [H3 | (rr' & Hin & H3)].
      * unfold key_max in H3.
        destruct (key_lt start (last_considered_key rr));
          [right; exists rr; auto | now left].
      * right. exists rr'. auto.
Qed.

(** The single-store merge of a range read without terminal, pieces holding
    streams: the whole response. *)
Lemma unshard_stream_eq (rg : rget_read_t)
    (pieces : list rget_read_response_t) (ctx : context_t) :
  terminal rg = None ->
  Forall holds_stream pieces ->
  unshard (read_rget rg) (map response_rget pieces) ctx
  = Ok (response_rget
          {| result := result_stream (flat_map stream_of pieces);
             truncated := some_truncated pieces;
             rr_key_range := key_range rg;
             last_considered_key :=
               greatest_last_considered_key (kr_left (key_range rg)) pieces |}).
Proof.
  intros Ht Hs. simpl. unfold unshard_rget.
  rewrite Ht, check_thrown_passes.
  - simpl. unfold unshard_stream.
    rewrite (unshard_stream_loop pieces _ _ Hs). reflexivity.
  - apply Forall_forall. intros p Hp. apply in_map_iff in Hp.
    destruct Hp as (rr & <- & Hin). exists rr. split; [reflexivity|].
    rewrite Forall_forall in Hs. rewrite (holds_stream_of rr (Hs rr Hin)).
    reflexivity.
Qed.

(** X2.  The single-store merge of a range read without terminal keeps every
    pair of every piece, in the order of the pieces, whatever [maximum] is:
    the merged stream is the concatenation of the pieces' streams, so its
    length is the sum of their lengths; the merged response is truncated
    exactly when some piece is. *)
Theorem unshard_concatenates_streams (rg : rget_read_t)
    (pieces : list rget_read_response_t) (ctx : context_t) :
  terminal rg = None ->
  Forall holds_stream pieces ->
  exists merged,
    unshard (read_rget rg) (map response_rget pieces) ctx
    = Ok (response_rget merged)
    /\ result merged = result_stream (List.concat (map stream_of pieces))
    /\ List.length (stream_of merged)
       = list_sum (map (fun rr => List.length (stream_of rr)) pieces)
    /\ (truncated merged = true <-> exists rr, In rr pieces /\ truncated rr = true)
    /\ rr_key_range merged = key_range rg.
Proof.
  intros Ht Hs. eexists.
  split; [apply (unshard_stream_eq rg pieces ctx Ht Hs)|].
  simpl. rewrite flat_map_concat_map. split; [reflexivity|]. split.
  - unfold stream_of at 1. simpl. clear.
    induction pieces as [|rr l IH]; simpl; [reflexivity|].
    rewrite length_app, IH. reflexivity.
  - split; [|reflexivity]. unfold some_truncated. rewrite existsb_exists.
    reflexivity.
Qed.

(** X3.  In the single-store merge of a range read without terminal the
    merged [last_considered_key] is the greatest of the left end of the
    request's key range and the [last_considered_key]s of all the pieces: it
    is above each of them and it is one of them. *)
Theorem unshard_last_considered_key_is_maximum (rg : rget_read_t)
    (pieces : list rget_read_response_t) (ctx : context_t) :
  terminal rg = None ->
  Forall holds_stream pieces ->
  exists merged,
    unshard (read_rget rg) (map response_rget pieces) ctx
    = Ok (response_rget merged)
    /\ key_le (kr_left (key_range rg)) (last_considered_key merged) = true
    /\ (forall rr, In rr pieces ->
          key_le (last_considered_key rr) (last_considered_key merged) = true)
    /\ (last_considered_key merged = kr_left (key_range rg)
        \/ exists rr, In rr pieces
                      /\ last_considered_key merged = last_considered_key rr).
Proof.
  intros Ht Hs. eexists.
  split; [apply (unshard_stream_eq rg pieces ctx Ht Hs)|].
  simpl. apply greatest_last_considered_key_spec.
Qed.

(** X4.  On the same pieces of a range read without terminal, the
    multistore merge returns the stream of the single-store merge without
    the pairs whose key is past the multistore [last_considered_key], in the
    same order; the two merged responses have the same [truncated] flag and
    the same key range. *)
Theorem multistore_stream_filters_unshard_stream (rg : rget_read_t)
    (pieces : list rget_read_response_t) (ctx : context_t) :
  terminal rg = None ->
  Forall holds_stream pieces ->
  exists single multi,
    unshard (read_rget rg) (map response_rget pieces) ctx
    = Ok (response_rget single)
    /\ multistore_unshard (read_rget rg) (map response_rget pieces) ctx
       = Ok (response_rget multi)
    /\ stream_of multi
       = filter (fun jt => key_le (fst jt) (last_considered_key multi))
                (stream_of single)
    /\ truncated multi = truncated single
    /\ rr_key_range multi = rr_key_range single.
Proof.
  intros Ht Hs. eexists. eexists.
  split; [apply (unshard_stream_eq rg pieces ctx Ht Hs)|].
  split; [apply (multistore_unshard_stream_eq rg pieces ctx Ht Hs)|].
  unfold stream_of at 1 2. simpl. split; [|split; [|reflexivity]].
  - generalize (least_last_considered_key (last_key_in_range (key_range rg))
                  (filter (full_page (maximum rg)) pieces)).
    intros k. clear.
    induction pieces as [|rr l IH]; simpl; [reflexivity|].
    rewrite filter_app, IH. reflexivity.
  - unfold some_truncated. rewrite fold_left_orb_existsb. reflexivity.
Qed.

(** ** Point reads *)

(** X5.  Both mergers treat a point read alike: they return a response
    exactly when the vector holds one response and it is a point-read
    response, and then they return that response; on any other vector they
    stop at an assertion. *)
Theorem unshard_point_read (pr : point_read_t) (responses : list read_response_t)
    (ctx : context_t) :
  multistore_unshard (read_point pr) responses ctx
  = unshard (read_point pr) responses ctx
  /\ (forall r,
        unshard (read_point pr) responses ctx = Ok r
        <-> responses = [r] /\ exists p, r = response_point p)
  /\ ((forall p, responses <> [response_point p]) ->
      unshard (read_point pr) responses ctx = Crash).
Proof.
  split; [reflexivity|]. simpl. unfold unshard_point. split.
  - intros r. split.
    + destruct responses as [|r0 [|r1 l]]; simpl; try discriminate.
      destruct r0 as [p | rr | d]; simpl; try discriminate.
      intros [= <-]. split; [reflexivity|]. now exists p.
    + intros [-> [p ->]]. reflexivity.
  - intros Hne.
    destruct responses as [|r0 [|r1 l]]; simpl; try reflexivity.
    destruct r0 as [p | rr | d]; simpl; try reflexivity.
    destruct (Hne p eq_refl).
Qed.

(** ** Terminals that count *)

Lemma check_thrown_first_exc (responses : list read_response_t)
    (e : runtime_exc_t) :
  check_thrown responses = Throw e ->
  exists pre rr post,
    responses = (pre ++ response_rget rr :: post)%list
    /\ Forall no_runtime_exc pre
    /\ result rr = result_exc e.
Proof.
  unfold check_thrown.
  induction responses as [|p l IH]; cbn [for_each]; [discriminate|].
  destruct p as [pt | rr | d]; cbn [get_rget_read_response deref bind];
    try discriminate.
  destruct (result rr) eqn:Hres; cbn [get_runtime_exc bind];
    try (intros H; destruct (IH H) as (pre & rr' & post & -> & Hpre & Hrr');
         exists (response_rget rr :: pre), rr', post;
         split; [reflexivity|]; split; [|exact Hrr'];
         constructor; [|exact Hpre];
         exists rr; split; [reflexivity|]; rewrite Hres; reflexivity).
  intros [= ->]. exists [], rr, l. repeat split; [constructor | exact Hres].
Qed.

(** X6.  With a [Length] or a [WriteQuery_ForEach] terminal neither merger
    ever returns a count: on every vector of responses either both calls
    stop (at the write through the null [res_length] or [res_inserted], or at
    a piece that is no range-read response), or some piece holds a runtime
    error and both return a response whose result is the error of the first
    such piece. *)
Theorem counting_terminals_return_no_count (rg : rget_read_t)
    (responses : list read_response_t) (ctx : context_t) :
  (terminal rg = Some terminal_length
   \/ exists fe, terminal rg = Some (terminal_for_each fe)) ->
  (unshard (read_rget rg) responses ctx = Crash
   /\ multistore_unshard (read_rget rg) responses ctx = Crash)
  \/ exists pre rr post e merged,
       responses = (pre ++ response_rget rr :: post)%list
       /\ Forall no_runtime_exc pre
       /\ result rr = result_exc e
       /\ unshard (read_rget rg) responses ctx = Ok (response_rget merged)
       /\ multistore_unshard (read_rget rg) responses ctx
          = Ok (response_rget merged)
       /\ result merged = result_exc e.
Proof.
  intros Ht. simpl. unfold unshard_rget, multistore_unshard_rget.
  destruct (check_thrown responses) as [[] | e | ] eqn:Hcheck; simpl.
  - destruct Ht as [-> | [fe ->]]; simpl; left; split; reflexivity.
  - right.
    destruct (check_thrown_first_exc responses e Hcheck)
      as (pre & rr & post & Heq & Hpre & Hrr).
    exists pre, rr, post, e,
      (set_result (initial_rget_response rg) (result_exc e)).
    repeat split; assumption || reflexivity.
  - left. split; reflexivity.
Qed.

(** ** What a merged range-read response keeps of the request *)

Lemma for_each_invariant {A S : Type} (P : S -> Prop) (f : S -> A -> outcome S)
    (l : list A) (s s' : S) :
  (forall s a s', P s -> f s a = Ok s' -> P s') ->
  P s -> for_each f l s = Ok s' -> P s'.
Proof.
  intros Hf. revert s. induction l as [|a l IH]; intros s Hs; simpl.
  - intros [= <-]. exact Hs.
  - destruct (f s a) as [s1 | e | ] eqn:E; simpl; try discriminate.
    apply IH. eapply Hf; eassumption.
Qed.

(** X7.  Whatever the pieces hold, a response returned by either merger of a
    range read is a range-read response whose key range is the request's;
    when the request has a terminal, or the result is the runtime error of a
    piece, its [truncated] flag is false and its [last_considered_key] is
    the left end of the request's key range, whatever the flags and keys of
    the pieces. *)
Theorem unshard_rget_keeps_request_range (rg : rget_read_t)
    (responses : list read_response_t) (ctx : context_t) (r : read_response_t) :
  unshard (read_rget rg) responses ctx = Ok r
  \/ multistore_unshard (read_rget rg) responses ctx = Ok r ->
  exists rr,
    r = response_rget rr
    /\ rr_key_range rr = key_range rg
    /\ ((terminal rg <> None \/ exists e, result rr = result_exc e) ->
        truncated rr = false
        /\ last_considered_key rr = kr_left (key_range rg)).
Proof.
  assert (Hterm : forall t x,
            unshard_terminal rg t (initial_rget_response rg) responses = Ok x ->
            rr_key_range x = key_range rg
            /\ truncated x = false
            /\ last_considered_key x = kr_left (key_range rg)).
  { intros t x. destruct t as [gmr | red | | fe]; simpl.
    - destruct (unshard_gmr gmr (scopes rg) responses); simpl; try discriminate.
      intros [= <-]. auto.
    - destruct (unshard_reduction red (scopes rg) responses); simpl;
        try discriminate.
      intros [= <-]. auto.
    - discriminate.
    - discriminate. }
  assert (Hstream : forall x,
            unshard_stream (initial_rget_response rg) responses = Ok x ->
            rr_key_range x = key_range rg
            /\ forall e, result x <> result_exc e).
  { intros x. unfold unshard_stream.
    destruct (for_each _ responses _) as [[x' st] | e | ] eqn:E; simpl;
      try discriminate.
    intros [= <-]. split; [|discriminate]. simpl.
    apply (for_each_invariant
             (fun st => rr_key_range (fst st) = key_range rg)) in E;
      [exact E | | reflexivity].
    intros [y ys] i [y' ys'] Hy. simpl in *.
    destruct (get_rget_read_response i) as [_rr|]; simpl; try discriminate.
    destruct (get_stream (result _rr)) as [stream|]; simpl; try discriminate.
    intros [= <- _].
    destruct (key_lt _ _); exact Hy. }
  assert (Hmulti : forall x,
            multistore_unshard_stream rg (initial_rget_response rg) responses = Ok x ->
            rr_key_range x = key_range rg
            /\ forall e, result x <> result_exc e).
  { intros x. unfold multistore_unshard_stream.
    destruct (figure_out_last_considered_key rg _ responses)
      as [x1 | e | ] eqn:E1; simpl; try discriminate.
    unfold filter_streams.
    destruct (for_each push_back_filtered responses _)
      as [[x2 st] | e | ] eqn:E2; simpl; try discriminate.
    intros [= <-]. split; [|discriminate]. simpl.
    assert (H1 : rr_key_range x1 = key_range rg).
    { unfold figure_out_last_considered_key in E1.
      apply (for_each_invariant (fun y => rr_key_range y = key_range rg)) in E1;
        [exact E1 | | reflexivity].
      intros y i y' Hy. unfold lower_last_considered_key.
      destruct (get_rget_read_response i) as [_rr|]; simpl; try discriminate.
      destruct (get_stream (result _rr)) as [stream|]; simpl; try discriminate.
      destruct (N.eqb _ _); [destruct (key_lt _ _)|]; intros [= <-]; exact Hy. }
    apply (for_each_invariant
             (fun st => rr_key_range (fst st) = key_range rg)) in E2;
      [exact E2 | | exact H1].
    intros [y ys] i [y' ys'] Hy. unfold push_back_filtered. simpl in *.
    destruct (get_rget_read_response i) as [_rr|]; simpl; try discriminate.
    destruct (get_stream (result _rr)) as [stream|]; simpl; try discriminate.
    intros [= <- _]. exact Hy. }
  simpl. unfold unshard_rget, multistore_unshard_rget.
  destruct (check_thrown responses) as [[] | e | ]; simpl.
  - destruct (terminal rg) as [t|] eqn:Ht.
    + intros H.
      destruct (unshard_terminal rg t (initial_rget_response rg) responses)
        as [x | e | ] eqn:E; simpl in H.
      * assert (Hr : r = response_rget x) by (destruct H; congruence).
        exists x. split; [exact Hr|].
        destruct (Hterm _ _ E) as (H1 & H2 & H3). auto.
      * assert (Hr : r = response_rget
                           (set_result (initial_rget_response rg) (result_exc e)))
          by (destruct H; congruence).
        eexists. split; [exact Hr|]. simpl. auto.
      * destruct H; discriminate.
    + intros [H | H].
      * destruct (unshard_stream _ responses) as [x | e | ] eqn:E; simpl in H;
          [ | | discriminate].
        -- injection H as <-. exists x. split; [reflexivity|].
           destruct (Hstream x eq_refl) as [H1 H2]. split; [exact H1|].
           intros [Hn | [e He]]; [destruct (Hn eq_refl) | destruct (H2 e He)].
        -- injection H as <-. eexists. split; [reflexivity|]. simpl. auto.
      * destruct (multistore_unshard_stream rg _ responses) as [x | e | ] eqn:E;
          simpl in H; [ | | discriminate].
        -- injection H as <-. exists x. split; [reflexivity|].
           destruct (Hmulti x eq_refl) as [H1 H2]. split; [exact H1|].
           intros [Hn | [e He]]; [destruct (Hn eq_refl) | destruct (H2 e He)].
        -- injection H as <-. eexists. split; [reflexivity|]. simpl. auto.
  - intros [[= <-] | [= <-]]; eexists; (split; [reflexivity|]); simpl; auto.
  - intros [H | H]; discriminate.
Qed.

(** ** The [Reduction] terminal *)

Lemma holds_atom_of (rr : rget_read_response_t) :
  holds_atom rr -> result rr = result_atom (atom_of rr).
Proof. intros [a Ha]. unfold atom_of. now rewrite Ha. Qed.

Lemma unshard_reduction_loop (r : Reduction) (f : json_t -> json_t -> json_t)
    (P : json_t -> Prop) (pieces : list rget_read_response_t)
    (sc : scopes_t) (acc : json_t) :
  (forall sc a b, P a -> P b ->
     eval (body r)
          (put_in_scope (var2 r) b (put_in_scope (var1 r) a (new_val_scope sc)))
     = Ok (f a b) /\ P (f a b)) ->
  Forall holds_atom pieces ->
  Forall (fun rr => P (atom_of rr)) pieces ->
  P acc ->
  exists sc',
    for_each (fun (st : scopes_t * atom_t) i =>
                _rr <- deref (get_rget_read_response i) ;;
                atom <- deref (get_atom (result _rr)) ;;
                reduce_step r (fst st) (fun _ => Ok (snd st)) atom)
             (map response_rget pieces) (sc, acc)
    = Ok (sc', fold_left f (map atom_of pieces) acc).
Proof.
  intros Hf Ha. revert sc acc.
  induction Ha as [|rr l Hrr _ IH]; intros sc acc HP Hacc.
  - exists sc. reflexivity.
  - inversion HP as [|? ? Hp HP']; subst.
    cbn [map for_each fold_left].
    cbn [get_rget_read_response deref bind].
    rewrite (holds_atom_of rr Hrr). cbn [get_atom deref bind].
    unfold reduce_step. cbn [fst snd bind].
    destruct (Hf sc acc (atom_of rr) Hacc Hp) as [-> Hnext]. cbn [bind].
    apply IH; assumption.
Qed.

(** X8.  With a [Reduction] terminal both mergers fold the body over the
    atoms of the pieces from left to right, in the order of the vector,
    starting from the value of the base: when the base evaluates to [z] and
    the body, with [var1] and [var2] bound to [a] and [b] in a new scope,
    evaluates to [f a b] on the values met, the merged result is the atom
    [f (... (f (f z a1) a2) ...) an]. *)
Theorem unshard_reduction_folds_left (rg : rget_read_t) (r : Reduction)
    (f : json_t -> json_t -> json_t) (z : json_t) (P : json_t -> Prop)
    (pieces : list rget_read_response_t) (ctx : context_t) :
  terminal rg = Some (terminal_reduction r) ->
  eval (base r) (scopes rg) = Ok z ->
  (forall sc a b, P a -> P b ->
     eval (body r)
          (put_in_scope (var2 r) b (put_in_scope (var1 r) a (new_val_scope sc)))
     = Ok (f a b) /\ P (f a b)) ->
  P z ->
  Forall holds_atom pieces ->
  Forall (fun rr => P (atom_of rr)) pieces ->
  exists merged,
    unshard (read_rget rg) (map response_rget pieces) ctx
    = Ok (response_rget merged)
    /\ multistore_unshard (read_rget rg) (map response_rget pieces) ctx
       = Ok (response_rget merged)
    /\ result merged = result_atom (fold_left f (map atom_of pieces) z).
Proof.
  intros Ht Hz Hf HPz Ha HP.
  exists (set_result (initial_rget_response rg)
            (result_atom (fold_left f (map atom_of pieces) z))).
  simpl. unfold unshard_rget, multistore_unshard_rget.
  rewrite Ht, check_thrown_passes.
  - simpl. unfold unshard_reduction. rewrite Hz. cbn [bind].
    destruct (unshard_reduction_loop r f P pieces (scopes rg) z Hf Ha HP HPz)
      as [sc' ->].
    repeat split; reflexivity.
  - apply Forall_forall. intros p Hp. apply in_map_iff in Hp.
    destruct Hp as (rr & <- & Hin). exists rr. split; [reflexivity|].
    rewrite Forall_forall in Ha. rewrite (holds_atom_of rr (Ha rr Hin)).
    reflexivity.
Qed.

(** ** Sharding *)

Lemma key_eq_eq (a b : store_key_t) : key_eq a b = true -> a = b.
Proof. apply String.eqb_eq. Qed.

Lemma region_eqb_eq (a b : region_t) : region_eqb a b = true -> a = b.
Proof.
  unfold region_eqb, key_range_eqb. intros H.
  apply andb_true_iff in H. destruct H as [H Hk].
  apply andb_true_iff in H. destruct H as [Hb He].
  apply andb_true_iff in Hk. destruct Hk as [Hl Hr].
  apply Z.eqb_eq in Hb. apply Z.eqb_eq in He. apply key_eq_eq in Hl.
  destruct a as [ba ea [la ra]], b as [bb eb [lb rb]]. simpl in *. subst.
  f_equal. f_equal.
  destruct ra, rb; simpl in Hr; try discriminate; try reflexivity;
    apply key_eq_eq in Hr; now subst.
Qed.

(** X9.  [write_t::shard] returns a write exactly when the region is the
    monokey region of the write's key, and then it returns the write itself;
    on every other region it stops at the assertion. *)
Theorem write_shard_own_region (w w' : write_t) (region : region_t) :
  (write_shard w region = Ok w' <-> w' = w /\ region = write_get_region w)
  /\ (region <> write_get_region w -> write_shard w region = Crash).
Proof.
  assert (H : forall k (x : write_t),
            (rassert (region_eqb (monokey_region k) region) ;;; Ok x) = Ok w'
            <-> w' = x /\ region = monokey_region k).
  { intros k x. destruct (region_eqb (monokey_region k) region) eqn:E; simpl.
    - apply region_eqb_eq in E. split.
      + intros [= <-]. auto.
      + intros [-> _]. reflexivity.
    - split; [discriminate|]. intros [_ ->].
      rewrite region_eqb_refl in E. discriminate. }
  split.
  - destruct w; simpl; apply H.
  - intros Hne.
    assert (Hc : forall k (x : write_t),
              region <> monokey_region k ->
              (rassert (region_eqb (monokey_region k) region) ;;; Ok x) = Crash).
    { intros k x Hk. destruct (region_eqb (monokey_region k) region) eqn:E;
        [|reflexivity].
      apply region_eqb_eq in E. congruence. }
    destruct w; simpl in *; apply Hc; exact Hne.
Qed.

(** X10.  A read returned by [read_t::shard] for a region [R] declares the
    key range of [R]; the region it declares is [R] itself for a point read,
    and for a range or distribution read exactly when the hash interval of
    [R] is the whole hash universe: the hash interval of [R] is not kept in
    the read. *)
Theorem shard_then_get_region (r r' : read_t) (region : region_t) :
  shard r region = Ok r' ->
  inner (get_region r') = inner region
  /\ (get_region r' = region
      <-> (exists pr, r = read_point pr)
          \/ (beg region = 0 /\ end_ region = HASH_REGION_HASH_SIZE)).
Proof.
  destruct r as [pr | rg | dg]; simpl.
  - destruct (region_eqb (monokey_region (pr_key pr)) region) eqn:E; simpl;
      try discriminate.
    apply region_eqb_eq in E. subst region. intros [= <-]. simpl.
    split; [reflexivity|]. split; eauto.
  - destruct (region_is_superset _ region); simpl; try discriminate.
    intros [= <-]. simpl. split; [reflexivity|].
    unfold region_of_key_range. destruct region as [b e i]. simpl. split.
    + intros [= <- <-]. auto.
    + intros [[pr H] | [-> ->]]; [discriminate|reflexivity].
  - destruct (region_is_superset _ region); simpl; try discriminate.
    intros [= <-]. simpl. split; [reflexivity|].
    unfold region_of_key_range. destruct region as [b e i]. simpl. split.
    + intros [= <- <-]. auto.
    + intros [[pr H] | [-> ->]]; [discriminate|reflexivity].
Qed.

(** X11.  The hash interval of [monokey_region(k)] holds the hash of [k]
    and nothing else, unless that hash is the largest [uint64_t]: then
    [h + 1] wraps to 0 and the interval is empty. *)
Theorem monokey_region_one_hash (k : store_key_t) :
  (uint64 (hash_region_hasher k) < 2 ^ 64 - 1 ->
   end_ (monokey_region k) - beg (monokey_region k) = 1
   /\ forall h, hash_in_region h (monokey_region k) = true
                <-> h = uint64 (hash_region_hasher k))
  /\ (uint64 (hash_region_hasher k) = 2 ^ 64 - 1 ->
      forall h, hash_in_region h (monokey_region k) = false).
Proof.
  assert (Hr : 0 <= uint64 (hash_region_hasher k) < 2 ^ 64).
  { unfold uint64. apply Z.mod_pos_bound. lia. }
  unfold monokey_region, hash_in_region. cbn [beg end_].
  set (hk := uint64 (hash_region_hasher k)) in *. split.
  - intros Hlt. rewrite (uint64_small (hk + 1)) by lia. split; [lia|].
    intros h. rewrite andb_true_iff, Z.leb_le, Z.ltb_lt. lia.
  - intros Heq h. rewrite Heq.
    replace (uint64 (2 ^ 64 - 1 + 1)) with 0 by reflexivity.
    apply andb_false_iff. rewrite Z.leb_gt, Z.ltb_ge. lia.
Qed.

(** ** More on the CPU sharding subspaces *)

(** X12.  [cpu_sharding_subspace(i, n)] returns a region exactly for
    [0 <= i < n]; the regions tile the hash universe in order: the first
    begins at 0, each one ends where the next begins, and the last ends at
    [HASH_REGION_HASH_SIZE]. *)
Theorem cpu_sharding_subspaces_contiguous (n : Z) :
  0 <= HASH_REGION_HASH_SIZE < 2 ^ 64 ->
  1 <= n <= INT_MAX ->
  (forall i, (exists r, cpu_sharding_subspace i n = Ok r) <-> 0 <= i < n)
  /\ (forall i, ~ 0 <= i < n -> cpu_sharding_subspace i n = Crash)
  /\ (exists first, cpu_sharding_subspace 0 n = Ok first /\ beg first = 0)
  /\ (exists last, cpu_sharding_subspace (n - 1) n = Ok last
                   /\ end_ last = HASH_REGION_HASH_SIZE)
  /\ (forall i, 0 <= i -> i + 1 < n ->
        exists r r', cpu_sharding_subspace i n = Ok r
                     /\ cpu_sharding_subspace (i + 1) n = Ok r'
                     /\ beg r <= end_ r /\ end_ r = beg r').
Proof.
  intros HS Hn.
  assert (Hw : 0 <= HASH_REGION_HASH_SIZE / n) by (apply Z.div_pos; lia).
  split; [|split; [|split; [|split]]].
  - intros i. split.
    + intros [r Hr]. exact (cpu_sharding_subspace_Ok _ _ _ Hr).
    + intros Hi. eexists. apply cpu_sharding_subspace_eq; assumption.
  - intros i Hi. unfold cpu_sharding_subspace.
    destruct (i >=? 0) eqn:E1; simpl; [|reflexivity].
    destruct (i <? n) eqn:E2; simpl; [|reflexivity].
    apply Z.geb_le in E1. apply Z.ltb_lt in E2. lia.
  - eexists. split; [apply cpu_sharding_subspace_eq; try assumption; lia|].
    simpl. lia.
  - eexists. split; [apply cpu_sharding_subspace_eq; try assumption; lia|].
    simpl. replace (n - 1 + 1 =? n) with true by (symmetry; apply Z.eqb_eq; lia).
    reflexivity.
  - intros i Hi Hlt. eexists. eexists.
    split; [apply cpu_sharding_subspace_eq; try assumption; lia|].
    split; [apply cpu_sharding_subspace_eq; try assumption; lia|].
    simpl.
    replace (i + 1 =? n) with false by (symmetry; apply Z.eqb_neq; lia).
    split; lia.
Qed.

Lemma contains_key_universe (k : store_key_t) :
  contains_key key_range_universe k = true.
Proof. unfold contains_key, key_le, String.leb. destruct k; reflexivity. Qed.

Lemma cpu_shard_of_hash (n h : Z) :
  0 <= HASH_REGION_HASH_SIZE < 2 ^ 64 ->
  1 <= n <= INT_MAX ->
  0 <= h < HASH_REGION_HASH_SIZE ->
  exists i r,
    cpu_sharding_subspace i n = Ok r
    /\ hash_in_region h r = true
    /\ inner r = key_range_universe
    /\ forall j r', cpu_sharding_subspace j n = Ok r' ->
                    hash_in_region h r' = true -> j = i.
Proof.
  intros HS Hn Hh.
  assert (Hw : 0 <= HASH_REGION_HASH_SIZE / n) by (apply Z.div_pos; lia).
  assert (Hwn : HASH_REGION_HASH_SIZE / n * n <= HASH_REGION_HASH_SIZE).
  { rewrite Z.mul_comm. apply Z.mul_div_le. lia. }
  set (w := HASH_REGION_HASH_SIZE / n) in *.
  assert (Hex : exists i, 0 <= i < n
                          /\ w * i <= h
                          /\ h < (if i + 1 =? n then HASH_REGION_HASH_SIZE
                                  else w * i + w)).
  { destruct (Z.eq_dec w 0) as [E | E].
    { exists (n - 1). rewrite E.
      replace (n - 1 + 1 =? n) with true by (symmetry; apply Z.eqb_eq; lia).
      lia. }
    assert (Hwpos : 0 < w) by lia.
    pose proof (Z.mul_div_le h w Hwpos) as Hlo.
    pose proof (Z.mul_succ_div_gt h w Hwpos) as Hhi.
    assert (Hq : 0 <= h / w) by (apply Z.div_pos; lia).
    destruct (Z.lt_ge_cases (h / w) (n - 1)) as [Hlt | Hge].
    - exists (h / w).
      replace (h / w + 1 =? n) with false by (symmetry; apply Z.eqb_neq; lia).
      split; [lia|]. split; nia.
    - exists (n - 1).
      replace (n - 1 + 1 =? n) with true by (symmetry; apply Z.eqb_eq; lia).
      split; [lia|]. split; [nia|lia]. }
  destruct Hex as (i & Hi & Hlo & Hhi).
  exists i. eexists.
  split; [apply cpu_sharding_subspace_eq; assumption|].
  unfold hash_in_region. cbn [beg end_ inner]. fold w.
  split; [apply andb_true_iff; split; [apply Z.leb_le | apply Z.ltb_lt]; lia|].
  split; [reflexivity|].
  intros j r' Hr' Hin.
  pose proof (cpu_sharding_subspace_Ok _ _ _ Hr') as Hj.
  rewrite cpu_sharding_subspace_eq in Hr' by assumption.
  injection Hr' as <-. cbn [beg end_] in Hin. fold w in Hin.
  apply andb_true_iff in Hin. destruct Hin as [Hb He].
  apply Z.leb_le in Hb. apply Z.ltb_lt in He.
  destruct (Z.eqb_spec (i + 1) n) as [Ei | Ei];
    destruct (Z.eqb_spec (j + 1) n) as [Ej | Ej]; try lia.
  - destruct (Z.eq_dec j i); [assumption|]. exfalso. nia.
  - destruct (Z.eq_dec j i); [assumption|]. exfalso. nia.
  - destruct (Z.lt_trichotomy j i) as [H | [H | H]]; [|assumption|];
      exfalso; nia.
Qed.

(** X13.  For every [n >= 1] and every key whose hash is below
    [HASH_REGION_HASH_SIZE], exactly one of the regions
    [cpu_sharding_subspace(0, n)] to [cpu_sharding_subspace(n-1, n)], taken
    as the region of a delete-range chunk, makes
    [range_key_tester_t::key_should_be_erased] accept the key. *)
Theorem key_erased_by_one_cpu_shard (n : Z) (key : store_key_t) :
  0 <= HASH_REGION_HASH_SIZE < 2 ^ 64 ->
  1 <= n <= INT_MAX ->
  uint64 (hash_region_hasher key) < HASH_REGION_HASH_SIZE ->
  exists i r,
    cpu_sharding_subspace i n = Ok r
    /\ key_should_be_erased r key = true
    /\ forall j r', cpu_sharding_subspace j n = Ok r' ->
                    key_should_be_erased r' key = true -> j = i.
Proof.
  intros HS Hn Hh.
  assert (Hr : 0 <= uint64 (hash_region_hasher key)).
  { unfold uint64. apply Z.mod_pos_bound. lia. }
  destruct (cpu_shard_of_hash n (uint64 (hash_region_hasher key)) HS Hn)
    as (i & r & Hi & Hin & Hu & Huniq); [lia|].
  exists i, r. split; [exact Hi|]. split.
  - unfold key_should_be_erased. unfold hash_in_region in Hin.
    rewrite Hin, Hu. apply contains_key_universe.
  - intros j r' Hj He. apply (Huniq j r' Hj).
    unfold key_should_be_erased in He. apply andb_true_iff in He.
    destruct He as [He _]. exact He.
Qed.

(** ** The order of the pairs of a stream *)

Lemma key_lt_irrefl (a : store_key_t) : key_lt a a = false.
Proof. unfold key_lt, String.ltb. now rewrite string_compare_refl. Qed.

Lemma key_lt_not_le (a b : store_key_t) : key_lt a b = true -> key_le b a = false.
Proof.
  unfold key_lt, key_le, String.ltb, String.leb.
  rewrite (String.compare_antisym b a).
  destruct (String.compare a b); simpl; congruence.
Qed.

Lemma key_lt_trans (a b c : store_key_t) :
  key_lt a b = true -> key_lt b c = true -> key_lt a c = true.
Proof.
  intros Hab Hbc.
  destruct (key_lt a c) eqn:E; [reflexivity|].
  apply key_not_lt_le in E.
  pose proof (key_le_trans _ _ _ E (key_lt_le _ _ Hab)) as Hcb.
  rewrite (key_lt_not_le _ _ Hbc) in Hcb. discriminate.
Qed.

Lemma key_lt_total (a b : store_key_t) :
  key_lt a b = false -> key_lt b a = false -> a = b.
Proof.
  intros Hab Hba. apply String.leb_antisym.
  - apply key_not_lt_le in Hba. exact Hba.
  - apply key_not_lt_le in Hab. exact Hab.
Qed.

(** X14.  [rget_data_cmp] is a strict weak order on the pairs of a stream,
    as a comparator must be: no pair is before itself, the order is
    transitive, and two pairs neither of which is before the other have the
    same key. *)
Theorem rget_data_cmp_strict_weak_order (a b c : store_key_t * json_t) :
  rget_data_cmp a a = false
  /\ (rget_data_cmp a b = true -> rget_data_cmp b a = false)
  /\ (rget_data_cmp a b = true -> rget_data_cmp b c = true ->
      rget_data_cmp a c = true)
  /\ (rget_data_cmp a b = false -> rget_data_cmp b a = false -> fst a = fst b).
Proof.
  unfold rget_data_cmp. split; [apply key_lt_irrefl|]. split; [|split].
  - intros H. destruct (key_lt (fst b) (fst a)) eqn:E; [|reflexivity].
    pose proof (key_lt_trans _ _ _ H E) as Hc.
    rewrite key_lt_irrefl in Hc. discriminate.
  - apply key_lt_trans.
  - apply key_lt_total.
Qed.

(** ** More on the multistore merge of distributions *)

Lemma consider_piece_loop_keys (responses : list read_response_t)
    (st st' : Z * Z * key_counts_t) :
  for_each consider_piece responses st = Ok st' ->
  (snd st' = snd st
   \/ exists d, In (response_distribution d) responses /\ snd st' = key_counts d)
  /\ (List.length (snd st) <= List.length (snd st'))%nat
  /\ forall d, In (response_distribution d) responses ->
               (List.length (key_counts d) <= List.length (snd st'))%nat.
Proof.
  revert st. induction responses as [|i l IH]; intros [[t r] cur]; cbn [for_each].
  - intros [= <-]. simpl. split; [now left|]. split; [lia|intros d []].
  - unfold consider_piece at 1.
    destruct i as [p | rr | d]; cbn [get_distribution_read_response deref bind];
      try discriminate.
    unfold map_size.
    destruct (N.ltb_spec (N.of_nat (List.length cur))
                         (N.of_nat (List.length (key_counts d)))) as [Hlt | Hge];
      cbn [bind]; intros H; apply IH in H; cbn [snd] in *;
      destruct H as (H1 & H2 & H3).
    + split; [|split].
      * right. destruct H1 as [-> | (d' & Hin & ->)].
        -- exists d. split; [now left|reflexivity].
        -- exists d'. split; [now right|reflexivity].
      * lia.
      * intros d' [[= ->] | Hin]; [exact H2|auto].
    + split; [|split].
      * destruct H1 as [-> | (d' & Hin & ->)]; [now left|].
        right. exists d'. split; [now right|reflexivity].
      * exact H2.
      * intros d' [[= ->] | Hin]; [lia|auto].
Qed.

Lemma scale_counts_keys (scale_factor : double) (m r : key_counts_t) :
  scale_counts scale_factor m = Ok r -> map fst r = map fst m.
Proof.
  intros H. apply scale_counts_Ok in H.
  induction H as [|it it' m r [Hk _] _ IH]; simpl; [reflexivity|].
  now rewrite Hk, IH.
Qed.

(** X15.  Whatever the counts are, a response returned by the multistore
    merge of distributions is a distribution response with the keys, in
    order, of one of the pieces, and no piece has more keys than that one:
    the keys of the other pieces are not in the merged map. *)
Theorem multistore_distribution_keeps_keys_of_a_largest_piece
    (dg : distribution_read_t) (responses : list read_response_t)
    (ctx : context_t) (r : read_response_t) :
  multistore_unshard (read_distribution dg) responses ctx = Ok r ->
  exists merged selected,
    r = response_distribution merged
    /\ In (response_distribution selected) responses
    /\ map fst (key_counts merged) = map fst (key_counts selected)
    /\ forall d, In (response_distribution d) responses ->
                 (List.length (key_counts d)
                  <= List.length (key_counts selected))%nat.
Proof.
  cbn [multistore_unshard]. unfold multistore_unshard_distribution.
  destruct (distribution_preamble responses) as [[] | e | ]; cbn [bind];
    try discriminate.
  destruct (rassert (Nat.ltb 1 (List.length responses))) as [[] | e | ];
    cbn [bind]; try discriminate.
  destruct (same_first_key responses) as [same | e | ] eqn:Hsame; cbn [bind];
    try discriminate.
  destruct (rassert same) as [[] | e | ]; cbn [bind]; try discriminate.
  destruct (rassert (Nat.ltb 0 (List.length responses))) as [[] | e | ];
    cbn [bind]; try discriminate.
  destruct (select_piece responses) as [[[t res] sel] | e | ] eqn:Hsel;
    cbn [bind]; try discriminate.
  apply consider_piece_loop_keys in Hsel. cbn [snd] in Hsel.
  destruct Hsel as (H1 & _ & H3).
  assert (Hd : exists d, In (response_distribution d) responses
                         /\ sel = key_counts d).
  { destruct H1 as [-> | H1]; [|exact H1]. exfalso.
    unfold same_first_key in Hsame.
    destruct responses as [|r0 l]; cbn [nth_error deref bind] in Hsame;
      try discriminate.
    destruct r0 as [p | rr | d0];
      cbn [get_distribution_read_response deref bind] in Hsame;
      try discriminate.
    specialize (H3 d0 (or_introl eq_refl)).
    destruct (key_counts d0) as [|[k v] m] eqn:Ek; [|simpl in H3; lia].
    destruct l as [|r1 l']; simpl in Hsame; try discriminate.
    destruct (get_distribution_read_response r1); simpl in Hsame;
      discriminate. }
  destruct Hd as (d & Hin & ->).
  destruct (res =? 0).
  - intros [= <-]. exists d, d. repeat split; auto. now destruct d.
  - destruct (rassert _) as [[] | e | ]; cbn [bind]; try discriminate.
    destruct (scale_counts _ (key_counts d)) as [m | e | ] eqn:Hm; cbn [bind];
      try discriminate.
    intros [= <-]. exists {| key_counts := m |}, d.
    split; [reflexivity|]. split; [exact Hin|]. split; [|exact H3].
    simpl. eapply scale_counts_keys. exact Hm.
Qed.

(** ** Merging no response *)

(** X16.  On an empty vector of responses: a point read and a distribution
    read stop at their first assertion in both mergers; a range read without
    terminal returns an empty stream, not truncated, whose
    [last_considered_key] is the left end of the key range in the
    single-store merge and [last_key_in_range] in the multistore merge; a
    grouped map-reduce returns no group; a reduction returns the value of
    its base, or the runtime error the base raises. *)
Theorem unshard_no_response (r : read_t) (ctx : context_t) :
  match r with
  | read_point _ | read_distribution _ =>
      unshard r [] ctx = Crash /\ multistore_unshard r [] ctx = Crash
  | read_rget rg =>
      match terminal rg with
      | None =>
          exists single multi,
            unshard r [] ctx = Ok (response_rget single)
            /\ multistore_unshard r [] ctx = Ok (response_rget multi)
            /\ result single = result_stream []
            /\ result multi = result_stream []
            /\ truncated single = false
            /\ truncated multi = false
            /\ last_considered_key single = kr_left (key_range rg)
            /\ last_considered_key multi = last_key_in_range (key_range rg)
      | Some (terminal_gmr _) =>
          exists merged,
            unshard r [] ctx = Ok (response_rget merged)
            /\ multistore_unshard r [] ctx = Ok (response_rget merged)
            /\ result merged = result_groups []
      | Some (terminal_reduction red) =>
          match eval (base red) (scopes rg) with
          | Ok z =>
              exists merged,
                unshard r [] ctx = Ok (response_rget merged)
                /\ multistore_unshard r [] ctx = Ok (response_rget merged)
                /\ result merged = result_atom z
          | Throw e =>
              exists merged,
                unshard r [] ctx = Ok (response_rget merged)
                /\ multistore_unshard r [] ctx = Ok (response_rget merged)
                /\ result merged = result_exc e
          | Crash =>
              unshard r [] ctx = Crash /\ multistore_unshard r [] ctx = Crash
          end
      | Some _ =>
          unshard r [] ctx = Crash /\ multistore_unshard r [] ctx = Crash
      end
  end.
Proof.
  destruct r as [pr | rg | dg]; simpl; try (split; reflexivity).
  unfold unshard_rget, multistore_unshard_rget.
  destruct (terminal rg) as [[gmr | red | | fe]|]; simpl;
    try (split; reflexivity).
  - eexists. repeat split; reflexivity.
  - unfold unshard_reduction.
    destruct (eval (base red) (scopes rg)); simpl;
      try (split; reflexivity); eexists; repeat split; reflexivity.
  - do 2 eexists. repeat split; reflexivity.
Qed.

(** ** The single-store merge of distributions *)

Lemma std_contains_In (m : key_counts_t) (k : store_key_t) :
  increasing m -> (std_contains m k = true <-> In k (map fst m)).
Proof.
  induction m as [|[k' v'] m IH]; simpl.
  - intros _. split; [discriminate|intros []].
  - intros [Hall Hinc]. destruct (key_lt k k') eqn:E1.
    + split; [discriminate|]. intros [Heq | Hin].
      * subst. rewrite key_lt_irrefl in E1. discriminate.
      * apply in_map_iff in Hin. destruct Hin as (it & <- & Hin).
        rewrite Forall_forall in Hall. specialize (Hall it Hin).
        pose proof (key_lt_trans _ _ _ E1 Hall) as Hc.
        rewrite key_lt_irrefl in Hc. discriminate.
    + destruct (key_lt k' k) eqn:E2.
      * rewrite (IH Hinc). split; [auto|]. intros [Heq | Hin]; [|exact Hin].
        subst. rewrite key_lt_irrefl in E2. discriminate.
      * split; [|reflexivity]. intros _. left. now apply key_lt_total.
Qed.

Lemma map_insert_spec (m : key_counts_t) (k : store_key_t) (v : Z) :
  increasing m -> ~ In k (map fst m) ->
  increasing (map_insert k v m)
  /\ (forall x, In x (map_insert k v m) <-> x = (k, v) \/ In x m)
  /\ sum_counts (map_insert k v m) = v + sum_counts m.
Proof.
  induction m as [|[k' v'] m IH]; simpl.
  - intros _ _. repeat split; auto.
    + intros [H | []]; auto.
    + intros [H | []]; auto.
  - intros [Hall Hinc] Hnin. destruct (key_lt k k') eqn:E1.
    + split; [|split; [|reflexivity]].
      * simpl. split; [|auto]. constructor; [exact E1|].
        eapply Forall_impl; [|exact Hall]. intros it Hit. simpl in *.
        eapply key_lt_trans; eassumption.
      * intros x. simpl. split; intros H; intuition auto.
    + destruct (key_lt k' k) eqn:E2.
      * destruct IH as (H1 & H2 & H3);
          [exact Hinc|intros H; apply Hnin; now right|].
        split; [|split].
        -- simpl. split; [|exact H1]. apply Forall_forall. intros x Hx.
           apply H2 in Hx. destruct Hx as [-> | Hx]; [exact E2|].
           rewrite Forall_forall in Hall. auto.
        -- intros x. simpl. rewrite H2. tauto.
        -- simpl. rewrite H3. lia.
      * exfalso. apply Hnin. left. now apply key_lt_total.
Qed.

Lemma increasing_head_not_in (k : store_key_t) (v : Z) (m : key_counts_t) :
  increasing ((k, v) :: m) -> ~ In k (map fst m).
Proof.
  simpl. intros [Hall _] Hin. apply in_map_iff in Hin.
  destruct Hin as (it & Heq & Hin). rewrite Forall_forall in Hall.
  specialize (Hall it Hin). rewrite Heq, key_lt_irrefl in Hall. discriminate.
Qed.

Lemma map_insert_range_spec (piece m : key_counts_t) :
  increasing m -> increasing piece ->
  (forall k, In k (map fst piece) -> ~ In k (map fst m)) ->
  increasing (map_insert_range m piece)
  /\ (forall x, In x (map_insert_range m piece) <-> In x m \/ In x piece)
  /\ sum_counts (map_insert_range m piece) = sum_counts m + sum_counts piece.
Proof.
  unfold map_insert_range. revert m.
  induction piece as [|[k v] p IH]; intros m Hm Hp Hd; cbn [fold_left fst snd].
  - simpl. repeat split; auto; try tauto; lia.
  - destruct (map_insert_spec m k v Hm) as (H1 & H2 & H3).
    { apply Hd. now left. }
    pose proof (increasing_head_not_in k v p Hp) as Hk.
    destruct Hp as [_ Hp].
    destruct (IH (map_insert k v m) H1 Hp) as (I1 & I2 & I3).
    { intros k2 Hk2 Hin. apply in_map_iff in Hin.
      destruct Hin as (x & Hx & Hin). apply H2 in Hin.
      destruct Hin as [-> | Hin].
      - simpl in Hx. subst. exact (Hk Hk2).
      - apply (Hd k2); [now right|]. apply in_map_iff. eauto. }
    split; [exact I1|]. split.
    + intros x. rewrite I2, H2. simpl. cbn [fst snd].
      split; intros H; intuition (subst; auto).
    + rewrite I3, H3. simpl. cbn [fst snd]. lia.
Qed.

Lemma repeated_key_check_passes (response piece : key_counts_t) :
  increasing response ->
  (forall k, In k (map fst piece) -> ~ In k (map fst response)) ->
  for_each (fun (_ : unit) (it : store_key_t * Z) =>
              rassert (negb (std_contains response (fst it))))
           piece tt
  = Ok tt.
Proof.
  intros Hr. induction piece as [|it p IH]; intros Hd; cbn [for_each];
    [reflexivity|].
  destruct (std_contains response (fst it)) eqn:E.
  - exfalso. apply (Hd (fst it)); [now left|]. now apply std_contains_In.
  - cbn [negb rassert bind]. apply IH. intros k Hk. apply Hd. now right.
Qed.

Lemma unshard_distribution_loop (pieces : list distribution_read_response_t)
    (response : key_counts_t) :
  increasing response ->
  Forall (fun d => increasing (key_counts d)) pieces ->
  ForallOrdPairs disjoint_keys pieces ->
  (forall d k, In d pieces -> In k (map fst (key_counts d)) ->
               ~ In k (map fst response)) ->
  exists merged,
    for_each (fun (response : key_counts_t) i =>
                response_piece <- deref (get_distribution_read_response i) ;;
                for_each (fun (_ : unit) it =>
                            rassert (negb (std_contains response (fst it))))
                         (key_counts response_piece) tt ;;;
                Ok (map_insert_range response (key_counts response_piece)))
             (map response_distribution pieces) response
    = Ok merged
    /\ increasing merged
    /\ (forall x, In x merged
                  <-> In x response \/ exists d, In d pieces /\ In x (key_counts d))
    /\ sum_counts merged = sum_counts response + total_counts pieces.
Proof.
  intros Hr Hinc. revert response Hr.
  induction Hinc as [|d l Hd _ IH]; intros response Hr Hpairs Hdis.
  - exists response. cbn [map for_each]. repeat split; auto.
    + intros [H | (d & [] & _)]. exact H.
    + simpl. lia.
  - cbn [map for_each]. cbn [get_distribution_read_response deref bind].
    rewrite repeated_key_check_passes;
      [|exact Hr|intros k Hk; apply (Hdis d k); [now left|exact Hk]].
    cbn [bind].
    destruct (map_insert_range_spec (key_counts d) response Hr Hd)
      as (H1 & H2 & H3).
    { intros k Hk. apply (Hdis d k); [now left|exact Hk]. }
    inversion Hpairs as [|? ? Hfirst Hrest]; subst.
    destruct (IH _ H1 Hrest) as (merged & Heq & M1 & M2 & M3).
    { intros d' k Hd' Hk Hin. apply in_map_iff in Hin.
      destruct Hin as (x & Hx & Hin). apply H2 in Hin.
      destruct Hin as [Hin | Hin].
      - apply (Hdis d' k); [now right|exact Hk|]. apply in_map_iff. eauto.
      - rewrite Forall_forall in Hfirst.
        apply (Hfirst d' Hd' k); [|exact Hk]. apply in_map_iff. eauto. }
    exists merged. split; [exact Heq|]. split; [exact M1|]. split.
    + intros x. rewrite M2, H2. split.
      * intros [[H | H] | (d' & Hd' & H)]; auto.
        -- right. exists d. split; [now left|exact H].
        -- right. exists d'. split; [now right|exact H].
      * intros [H | (d' & [<- | Hd'] & H)]; auto.
        right. exists d'. auto.
    + rewrite M3, H3. simpl. lia.
Qed.

(** X17.  The single-store merge of distributions is the union of the
    pieces: over well-formed maps that share no key (and, when there are
    several pieces, with a first key in each of the first two), the merged
    map is well formed, holds exactly the entries of the pieces, and its
    counts add up to the counts of all the pieces. *)
Theorem unshard_distribution_is_union (dg : distribution_read_t)
    (pieces : list distribution_read_response_t) (ctx : context_t) :
  pieces <> [] ->
  Forall (fun d => increasing (key_counts d)) pieces ->
  ForallOrdPairs disjoint_keys pieces ->
  (forall d0 d1 rest, pieces = d0 :: d1 :: rest ->
                      key_counts d0 <> [] /\ key_counts d1 <> []) ->
  exists merged,
    unshard (read_distribution dg) (map response_distribution pieces) ctx
    = Ok (response_distribution merged)
    /\ increasing (key_counts merged)
    /\ (forall k v, In (k, v) (key_counts merged)
                    <-> exists d, In d pieces /\ In (k, v) (key_counts d))
    /\ sum_counts (key_counts merged) = total_counts pieces.
Proof.
  intros Hne Hinc Hpairs Hfirst.
  destruct (unshard_distribution_loop pieces [] I Hinc Hpairs)
    as (merged & Heq & M1 & M2 & M3).
  { intros d k _ _ []. }
  exists {| key_counts := merged |}.
  split; [|split; [exact M1|split]].
  - cbn [unshard]. unfold unshard_distribution. rewrite Heq.
    destruct pieces as [|d0 [|d1 rest]]; [congruence|reflexivity|].
    destruct (Hfirst d0 d1 rest eq_refl) as [H0 H1].
    unfold distribution_preamble, same_first_key.
    cbn [map List.length nth_error deref bind get_distribution_read_response
         is_some rassert Nat.ltb Nat.leb Nat.eqb orb].
    destruct (key_counts d0) as [|[k0 v0] m0] eqn:E0; [congruence|].
    destruct (key_counts d1) as [|[k1 v1] m1] eqn:E1; [congruence|].
    cbn [begin_first bind].
    assert (Hk : key_eq k0 k1 = false).
    { apply String.eqb_neq. intros ->.
      inversion Hpairs as [|? ? Hd0 _]; subst.
      inversion Hd0 as [|? ? Hd01 _]; subst.
      apply (Hd01 k1); [rewrite E0|rewrite E1]; now left. }
    rewrite Hk. reflexivity.
  - intros k v. simpl. rewrite M2. split.
    + intros [[] | H]. exact H.
    + intros H. now right.
  - simpl. rewrite M3. simpl. lia.
Qed.

End MoreProperties.

(** ** The grouped map-reduce terminal *)

Section GroupedMapReduce.

Context {ext : Externals}.

(** [shared_scoped_less_t] as a strict total order on JSON values. *)
Hypothesis less_irrefl : forall a, json_less a a = false.
Hypothesis less_trans :
  forall a b c, json_less a b = true -> json_less b c = true -> json_less a c = true.
Hypothesis less_total :
  forall a b, json_less a b = false -> json_less b a = false -> a = b.

Lemma less_asym (a b : json_t) : json_less a b = true -> json_less b a = false.
Proof.
  intros H. destruct (json_less b a) eqn:E; [|reflexivity].
  pose proof (less_trans _ _ _ H E) as Hc. rewrite less_irrefl in Hc.
  discriminate.
Qed.

Lemma groups_assign_In (k nv : json_t) (res : groups_t) (x : json_t * json_t) :
  In x (groups_assign k nv res) -> x = (k, nv) \/ In x res.
Proof.
  induction res as [|[k' v'] m IH]; simpl.
  - intros [<- | []]. now left.
  - destruct (json_less k k') eqn:E1.
    + intros [<- | H]; auto.
    + destruct (json_less k' k) eqn:E2.
      * intros [<- | H]; auto. destruct (IH H); auto.
      * rewrite (less_total _ _ E1 E2). intros [<- | H]; auto.
Qed.

Lemma groups_assign_sorted (k nv : json_t) (res : groups_t) :
  groups_sorted res -> groups_sorted (groups_assign k nv res).
Proof.
  induction res as [|[k' v'] m IH]; simpl.
  - auto.
  - intros [Hall Hs]. destruct (json_less k k') eqn:E1.
    + simpl. split; [|auto]. constructor; [exact E1|].
      eapply Forall_impl; [|exact Hall]. intros it Hit. simpl in *.
      eapply less_trans; eassumption.
    + destruct (json_less k' k) eqn:E2.
      * simpl. split; [|auto]. apply Forall_forall. intros x Hx.
        apply groups_assign_In in Hx. destruct Hx as [-> | Hx]; [exact E2|].
        rewrite Forall_forall in Hall. auto.
      * simpl. auto.
Qed.

Lemma groups_find_assign (k nv g : json_t) (res : groups_t) :
  groups_sorted res ->
  groups_find g (groups_assign k nv res)
  = if same_group g k then Some nv else groups_find g res.
Proof.
  unfold same_group.
  induction res as [|[k' v'] m IH]; simpl.
  - intros _. destruct (json_less g k) eqn:G1; simpl; [reflexivity|].
    destruct (json_less k g); reflexivity.
  - intros [Hall Hs]. destruct (json_less k k') eqn:E1.
    + simpl. destruct (json_less g k) eqn:G1; simpl.
      * now rewrite (less_trans _ _ _ G1 E1).
      * destruct (json_less k g) eqn:G2; reflexivity.
    + destruct (json_less k' k) eqn:E2.
      * simpl. destruct (json_less g k') eqn:G1.
        -- rewrite (less_trans _ _ _ G1 E2). reflexivity.
        -- destruct (json_less k' g) eqn:G2.
           ++ apply IH. exact Hs.
           ++ rewrite (less_total _ _ G1 G2), E2. reflexivity.
      * rewrite (less_total _ _ E1 E2). simpl.
        destruct (json_less g k') eqn:G1; simpl; [reflexivity|].
        destruct (json_less k' g) eqn:G2; reflexivity.
Qed.

Lemma groups_find_In (g v : json_t) (res : groups_t) :
  groups_find g res = Some v -> exists k, In (k, v) res.
Proof.
  induction res as [|[k' v'] m IH]; simpl; [discriminate|].
  destruct (json_less g k'); [discriminate|].
  destruct (json_less k' g).
  - intros H. destruct (IH H) as [k Hk]. eauto.
  - intros [= ->]. eauto.
Qed.

Variable gmr : Builtin_GroupedMapReduce.
Variable f : json_t -> json_t -> json_t.
Variable z : json_t.
Variable P : json_t -> Prop.

Hypothesis eval_base : forall sc, eval (base (reduction gmr)) sc = Ok z.
Hypothesis P_base : P z.
Hypothesis eval_body :
  forall sc a b, P a -> P b ->
    eval (body (reduction gmr))
         (put_in_scope (var2 (reduction gmr)) b
            (put_in_scope (var1 (reduction gmr)) a (new_val_scope sc)))
    = Ok (f a b) /\ P (f a b).

Lemma group_values_app (g : json_t) (e1 e2 : groups_t) :
  group_values g (e1 ++ e2)%list = (group_values g e1 ++ group_values g e2)%list.
Proof. unfold group_values. now rewrite filter_app, map_app. Qed.

Lemma same_group_eq (a b : json_t) : same_group a b = true -> a = b.
Proof.
  unfold same_group. intros H. apply andb_true_iff in H. destruct H as [H1 H2].
  apply negb_true_iff in H1. apply negb_true_iff in H2.
  now apply less_total.
Qed.

Lemma same_group_sym (a b : json_t) : same_group a b = same_group b a.
Proof. unfold same_group. apply andb_comm. Qed.

Lemma merged_so_far_step (sc : scopes_t) (entries res_groups : groups_t)
    (j : json_t * json_t) :
  merged_so_far f z P entries res_groups -> P (snd j) ->
  P (get_with_default res_groups (fst j) z)
  /\ merged_so_far f z P (entries ++ [j])%list
       (groups_assign (fst j)
          (f (get_with_default res_groups (fst j) z) (snd j)) res_groups).
Proof.
  intros (Hs & HP & Hfind) Hj.
  assert (Ha : P (get_with_default res_groups (fst j) z)).
  { unfold get_with_default.
    destruct (groups_find (fst j) res_groups) as [a|] eqn:E; [|exact P_base].
    destruct (groups_find_In _ _ _ E) as [k Hk].
    rewrite Forall_forall in HP. exact (HP _ Hk). }
  split; [exact Ha|]. split; [|split].
  - now apply groups_assign_sorted.
  - apply Forall_forall. intros x Hx. apply groups_assign_In in Hx.
    destruct Hx as [-> | Hx].
    + simpl. apply (eval_body sc); assumption.
    + rewrite Forall_forall in HP. auto.
  - intros g. rewrite (groups_find_assign _ _ _ _ Hs).
    rewrite group_values_app, fold_left_app.
    change (group_values g [j])
      with (map snd (if same_group (fst j) g then [j] else [])).
    rewrite (same_group_sym (fst j) g).
    destruct (same_group g (fst j)) eqn:E; cbn [map fold_left].
    + apply same_group_eq in E. subst g. unfold reduce_group at 1.
      unfold get_with_default. now rewrite Hfind.
    + apply Hfind.
Qed.

Lemma unshard_gmr_inner_loop (groups entries res_groups : groups_t) (sc : scopes_t) :
  merged_so_far f z P entries res_groups ->
  Forall (fun j => P (snd j)) groups ->
  exists sc' res_groups',
    for_each (fun (st : scopes_t * groups_t) (j : json_t * json_t) =>
                let '(sc, res_groups) := st in
                step <- reduce_step (reduction gmr) sc
                          (fun sc1 =>
                             b <- eval (base (reduction gmr)) sc1 ;;
                             Ok (get_with_default res_groups (fst j) b))
                          (snd j) ;;
                Ok (fst step, groups_assign (fst j) (snd step) res_groups))
             groups (sc, res_groups)
    = Ok (sc', res_groups')
    /\ merged_so_far f z P (entries ++ groups)%list res_groups'.
Proof.
  intros Hm HP. revert entries res_groups sc Hm.
  induction HP as [|j l Hj _ IH]; intros entries res_groups sc Hm.
  - exists sc, res_groups. rewrite app_nil_r. auto.
  - cbn [for_each]. unfold reduce_step at 1.
    rewrite eval_base. cbn [bind].
    destruct (merged_so_far_step sc entries res_groups j Hm Hj) as [Ha Hm'].
    destruct (eval_body sc _ _ Ha Hj) as [-> _]. cbn [bind fst snd].
    destruct (IH _ _ (pop_val_scope
                        (put_in_scope (var2 (reduction gmr)) (snd j)
                           (put_in_scope (var1 (reduction gmr))
                              (get_with_default res_groups (fst j) z)
                              (new_val_scope sc)))) Hm')
      as (sc' & res' & Heq & Hres).
    exists sc', res'. rewrite <- app_assoc in Hres. auto.
Qed.

Lemma holds_groups_of (rr : rget_read_response_t) :
  holds_groups rr -> result rr = result_groups (groups_of rr).
Proof. intros [g Hg]. unfold groups_of. now rewrite Hg. Qed.

Lemma unshard_gmr_loop (pieces : list rget_read_response_t)
    (entries res_groups : groups_t) (sc : scopes_t) :
  merged_so_far f z P entries res_groups ->
  Forall holds_groups pieces ->
  Forall (fun rr => Forall (fun j => P (snd j)) (groups_of rr)) pieces ->
  exists sc' res_groups',
    for_each (fun st i =>
                _rr <- deref (get_rget_read_response i) ;;
                groups <- deref (get_groups (result _rr)) ;;
                for_each (fun (st : scopes_t * groups_t) (j : json_t * json_t) =>
                            let '(sc, res_groups) := st in
                            step <- reduce_step (reduction gmr) sc
                                      (fun sc1 =>
                                         b <- eval (base (reduction gmr)) sc1 ;;
                                         Ok (get_with_default res_groups (fst j) b))
                                      (snd j) ;;
                            Ok (fst step, groups_assign (fst j) (snd step) res_groups))
                         groups st)
             (map response_rget pieces) (sc, res_groups)
    = Ok (sc', res_groups')
    /\ merged_so_far f z P (entries ++ flat_map groups_of pieces)%list res_groups'.
Proof.
  intros Hm Hg. revert entries res_groups sc Hm.
  induction Hg as [|rr l Hrr _ IH]; intros entries res_groups sc Hm HP.
  - exists sc, res_groups. simpl. rewrite app_nil_r. auto.
  - inversion HP as [|? ? Hp HP']; subst.
    cbn [map for_each flat_map].
    cbn [get_rget_read_response deref bind].
    rewrite (holds_groups_of rr Hrr). cbn [get_groups deref bind].
    destruct (unshard_gmr_inner_loop (groups_of rr) entries res_groups sc Hm Hp)
      as (sc1 & res1 & -> & Hm1).
    cbn [bind].
    destruct (IH _ _ sc1 Hm1 HP') as (sc' & res' & Heq & Hres).
    exists sc', res'. rewrite app_assoc. auto.
Qed.

(** X18.  With a grouped map-reduce terminal, for a strict total order on
    the group keys, a base that evaluates to [z] and a body that evaluates to
    [f a b] on the values met: both mergers return groups sorted by key in
    which every group holds the fold of the body, from left to right and
    starting from the base, over the values the pieces hold for that group,
    in the order of the vector; a group no piece holds is absent. *)
Theorem unshard_gmr_folds_each_group (rg : rget_read_t)
    (pieces : list rget_read_response_t) (ctx : context_t) :
  terminal rg = Some (terminal_gmr gmr) ->
  Forall holds_groups pieces ->
  Forall (fun rr => Forall (fun j => P (snd j)) (groups_of rr)) pieces ->
  exists response merged,
    unshard (read_rget rg) (map response_rget pieces) ctx
    = Ok (response_rget response)
    /\ multistore_unshard (read_rget rg) (map response_rget pieces) ctx
       = Ok (response_rget response)
    /\ result response = result_groups merged
    /\ groups_sorted merged
    /\ forall g, groups_find g merged
                 = fold_left (reduce_group f z) (values_of g pieces) None.
Proof.
  intros Ht Hg HP.
  assert (H0 : merged_so_far f z P [] []).
  { split; [exact I|]. split; [constructor|]. intros g. reflexivity. }
  destruct (unshard_gmr_loop pieces [] [] (scopes rg) H0 Hg HP)
    as (sc' & merged & Heq & Hs & _ & Hfind).
  exists (set_result (initial_rget_response rg) (result_groups merged)), merged.
  assert (Hcheck : check_thrown (map response_rget pieces) = Ok tt).
  { apply check_thrown_passes. apply Forall_forall. intros p Hp.
    apply in_map_iff in Hp. destruct Hp as (rr & <- & Hin).
    exists rr. split; [reflexivity|].
    rewrite Forall_forall in Hg. rewrite (holds_groups_of rr (Hg rr Hin)).
    reflexivity. }
  cbn [unshard multistore_unshard]. unfold unshard_rget, multistore_unshard_rget.
  rewrite Ht, Hcheck. cbn [bind]. unfold unshard_terminal, unshard_gmr.
  unfold groups_t in *. rewrite Heq. cbn [bind try_catch snd].
  repeat split; auto.
Qed.

End GroupedMapReduce.

(** ** Backfill chunks *)

Section BackfillProperties.

Context {ext : Externals}.
Variable repli_timestamp_t : Type.
Variable invalid : repli_timestamp_t.
Variable region_intersection : region_t -> region_t -> region_t.
Variable region_is_empty : region_t -> bool.

(** X19.  A chunk returned by [backfill_chunk_t::shard] has the recency of
    the chunk that was sharded.  A delete-key or key-value chunk is returned
    as it is, and only for a region that is a superset of the monokey region
    of its key; a delete-range chunk is returned with its region intersected
    with the shard's, and only when the intersection is not empty. *)
Theorem chunk_shard_keeps_recency
    (c c' : backfill_chunk_t repli_timestamp_t) (region : region_t) :
  chunk_shard repli_timestamp_t region_intersection region_is_empty c region
  = Ok c' ->
  get_btree_repli_timestamp repli_timestamp_t invalid c'
  = get_btree_repli_timestamp repli_timestamp_t invalid c
  /\ match c with
     | chunk_delete_range _ del =>
         c' = chunk_delete_range repli_timestamp_t
                {| dr_range := region_intersection (dr_range del) region |}
         /\ chunk_get_region repli_timestamp_t c'
            = region_intersection (dr_range del) region
         /\ region_is_empty (chunk_get_region repli_timestamp_t c') = false
     | _ =>
         c' = c
         /\ region_is_superset region (chunk_get_region repli_timestamp_t c)
            = true
     end.
Proof.
  destruct c as [del | del | kv]; simpl.
  - destruct (region_is_superset region (monokey_region (dk_key _ del))) eqn:E;
      simpl; try discriminate.
    intros [= <-]. auto.
  - destruct (region_is_empty (region_intersection (dr_range del) region)) eqn:E;
      simpl; try discriminate.
    intros [= <-]. simpl. auto.
  - destruct (region_is_superset region
                (monokey_region (atom_key _ (backfill_atom _ kv)))) eqn:E;
      simpl; try discriminate.
    intros [= <-]. auto.
Qed.

End BackfillProperties.

(** * The further statements on the sample instance *)

Lemma unshard_throws_nothing_witness :
  exists merged,
    unshard (read_rget (Sample.rget 1 (Some (terminal_reduction Sample.sum_reduction))))
      [response_rget Sample.atom_null; response_rget Sample.atom_5] tt
    = Ok (response_rget merged)
    /\ multistore_unshard
         (read_rget (Sample.rget 1 (Some (terminal_reduction Sample.sum_reduction))))
         [response_rget Sample.atom_null; response_rget Sample.atom_5] tt
       = Ok (response_rget merged)
    /\ result merged = result_exc (Sample.unbound "val")
    /\ truncated merged = false
    /\ rr_key_range merged
       = key_range (Sample.rget 1 (Some (terminal_reduction Sample.sum_reduction)))
    /\ last_considered_key merged
       = kr_left (key_range (Sample.rget 1 (Some (terminal_reduction
                                                  Sample.sum_reduction)))).
Proof.
  apply (proj2 (@unshard_throws_nothing Sample.externals
                  (read_rget (Sample.rget 1 (Some (terminal_reduction
                                                     Sample.sum_reduction))))
                  [response_rget Sample.atom_null; response_rget Sample.atom_5]
                  (write_point_delete {| pd_key := "a" |}) [] tt)
               (Sample.rget 1 (Some (terminal_reduction Sample.sum_reduction)))
               Sample.sum_reduction (Sample.unbound "val") eq_refl eq_refl).
  - repeat constructor; eexists; split; reflexivity.
  - right.
    exists (Some 0%Z), Sample.atom_null, [response_rget Sample.atom_5].
    repeat split; try reflexivity. eexists; reflexivity.
Defined.

Lemma unshard_concatenates_streams_witness :
  exists merged,
    unshard (read_rget (Sample.rget 1 None))
      (map response_rget [Sample.page_a; Sample.page_bq; Sample.page_empty]) tt
    = Ok (response_rget merged)
    /\ result merged
       = result_stream
           (List.concat
              (map stream_of [Sample.page_a; Sample.page_bq; Sample.page_empty]))
    /\ List.length (stream_of merged)
       = list_sum (map (fun rr => List.length (stream_of rr))
                       [Sample.page_a; Sample.page_bq; Sample.page_empty])
    /\ (truncated merged = true
        <-> exists rr, In rr [Sample.page_a; Sample.page_bq; Sample.page_empty]
                       /\ truncated rr = true)
    /\ rr_key_range merged = key_range (Sample.rget 1 None).
Proof.
  apply (@unshard_concatenates_streams Sample.externals (Sample.rget 1 None)
           [Sample.page_a; Sample.page_bq; Sample.page_empty] tt
           eq_refl sample_pages_hold_streams).
Defined.

Lemma unshard_last_considered_key_is_maximum_witness :
  exists merged,
    unshard (read_rget (Sample.rget 1 None))
      (map response_rget [Sample.page_a; Sample.page_bq; Sample.page_empty]) tt
    = Ok (response_rget merged)
    /\ key_le (kr_left (key_range (Sample.rget 1 None)))
              (last_considered_key merged) = true
    /\ (forall rr, In rr [Sample.page_a; Sample.page_bq; Sample.page_empty] ->
          key_le (last_considered_key rr) (last_considered_key merged) = true)
    /\ (last_considered_key merged = kr_left (key_range (Sample.rget 1 None))
        \/ exists rr, In rr [Sample.page_a; Sample.page_bq; Sample.page_empty]
                      /\ last_considered_key merged = last_considered_key rr).
Proof.
  apply (@unshard_last_considered_key_is_maximum Sample.externals
           (Sample.rget 1 None)
           [Sample.page_a; Sample.page_bq; Sample.page_empty] tt
           eq_refl sample_pages_hold_streams).
Defined.

Lemma multistore_stream_filters_unshard_stream_witness :
  exists single multi,
    unshard (read_rget (Sample.rget 1 None))
      (map response_rget [Sample.page_a; Sample.page_bq; Sample.page_empty]) tt
    = Ok (response_rget single)
    /\ multistore_unshard (read_rget (Sample.rget 1 None))
         (map response_rget [Sample.page_a; Sample.page_bq; Sample.page_empty]) tt
       = Ok (response_rget multi)
    /\ stream_of multi
       = filter (fun jt => key_le (fst jt) (last_considered_key multi))
                (stream_of single)
    /\ truncated multi = truncated single
    /\ rr_key_range multi = rr_key_range single.
Proof.
  apply (@multistore_stream_filters_unshard_stream Sample.externals
           (Sample.rget 1 None)
           [Sample.page_a; Sample.page_bq; Sample.page_empty] tt
           eq_refl sample_pages_hold_streams).
Defined.

Lemma counting_terminals_return_no_count_witness :
  (unshard (read_rget (Sample.rget 1 (Some (@terminal_for_each Sample.externals tt))))
     [response_rget Sample.page_a; response_rget Sample.page_exc] tt = Crash
   /\ multistore_unshard
        (read_rget (Sample.rget 1 (Some (@terminal_for_each Sample.externals tt))))
        [response_rget Sample.page_a; response_rget Sample.page_exc] tt = Crash)
  \/ exists pre rr post e merged,
       [response_rget Sample.page_a; response_rget Sample.page_exc]
       = (pre ++ response_rget rr :: post)%list
       /\ Forall no_runtime_exc pre
       /\ result rr = result_exc e
       /\ unshard
            (read_rget (Sample.rget 1 (Some (@terminal_for_each Sample.externals tt))))
            [response_rget Sample.page_a; response_rget Sample.page_exc] tt
          = Ok (response_rget merged)
       /\ multistore_unshard
            (read_rget (Sample.rget 1 (Some (@terminal_for_each Sample.externals tt))))
            [response_rget Sample.page_a; response_rget Sample.page_exc] tt
          = Ok (response_rget merged)
       /\ result merged = result_exc e.
Proof.
  apply (@counting_terminals_return_no_count Sample.externals
           (Sample.rget 1 (Some (@terminal_for_each Sample.externals tt)))
           [response_rget Sample.page_a; response_rget Sample.page_exc] tt).
  right. exists tt. reflexivity.
Defined.

Lemma unshard_rget_keeps_request_range_witness :
  exists rr,
    response_rget
      (set_result (initial_rget_response (Sample.rget 1 (Some (terminal_reduction
                                                          Sample.sum_reduction))))
                  (result_atom (Some 7)))
    = response_rget rr
    /\ rr_key_range rr
       = key_range (Sample.rget 1 (Some (terminal_reduction Sample.sum_reduction)))
    /\ ((terminal (Sample.rget 1 (Some (terminal_reduction Sample.sum_reduction)))
         <> None
         \/ exists e, result rr = result_exc e) ->
        truncated rr = false
        /\ last_considered_key rr
           = kr_left (key_range (Sample.rget 1 (Some (terminal_reduction
                                                      Sample.sum_reduction))))).
Proof.
  apply (@unshard_rget_keeps_request_range Sample.externals
           (Sample.rget 1 (Some (terminal_reduction Sample.sum_reduction)))
           (map response_rget [Sample.atom_2; Sample.atom_5]) tt).
  left. reflexivity.
Defined.

Lemma sample_sum_body (sc : Sample.scope_stack) (a b : option Z) :
  Sample.is_number a -> Sample.is_number b ->
  Sample.eval_term (body Sample.sum_reduction)
    (Sample.put (var2 Sample.sum_reduction) b
       (Sample.put (var1 Sample.sum_reduction) a ([] :: sc)))
  = Ok (Sample.plus a b)
  /\ Sample.is_number (Sample.plus a b).
Proof.
  unfold Sample.is_number. intros Ha Hb.
  destruct a as [x|]; [|congruence]. destruct b as [y|]; [|congruence].
  split; [reflexivity|discriminate].
Qed.

Lemma sample_atoms_hold_numbers :
  Forall (@holds_atom Sample.externals) [Sample.atom_2; Sample.atom_5]
  /\ Forall (fun rr => Sample.is_number (atom_of rr))
            [Sample.atom_2; Sample.atom_5].
Proof.
  split; repeat constructor; try (eexists; reflexivity); discriminate.
Qed.

Lemma unshard_reduction_folds_left_witness :
  exists merged,
    unshard (read_rget (Sample.rget 1 (Some (terminal_reduction Sample.sum_reduction))))
      (map response_rget [Sample.atom_2; Sample.atom_5]) tt
    = Ok (response_rget merged)
    /\ multistore_unshard
         (read_rget (Sample.rget 1 (Some (terminal_reduction Sample.sum_reduction))))
         (map response_rget [Sample.atom_2; Sample.atom_5]) tt
       = Ok (response_rget merged)
    /\ result merged
       = result_atom
           (fold_left Sample.plus
              (map atom_of [Sample.atom_2; Sample.atom_5]) (Some 0)).
Proof.
  apply (@unshard_reduction_folds_left Sample.externals
           (Sample.rget 1 (Some (terminal_reduction Sample.sum_reduction)))
           Sample.sum_reduction Sample.plus (Some 0) Sample.is_number
           [Sample.atom_2; Sample.atom_5] tt eq_refl eq_refl sample_sum_body).
  - discriminate.
  - exact (proj1 sample_atoms_hold_numbers).
  - exact (proj2 sample_atoms_hold_numbers).
Defined.

Lemma shard_then_get_region_witness :
  inner (get_region
           (read_rget {| key_range := inner Sample.shard_m_on;
                         maximum := 10; transform := tt; terminal := None;
                         scopes := [] |}))
  = inner Sample.shard_m_on
  /\ (get_region
        (read_rget {| key_range := inner Sample.shard_m_on;
                      maximum := 10; transform := tt; terminal := None;
                      scopes := [] |})
      = Sample.shard_m_on
      <-> (exists pr, read_rget (Sample.rget 10 None) = read_point pr)
          \/ (beg Sample.shard_m_on = 0
              /\ end_ Sample.shard_m_on = @HASH_REGION_HASH_SIZE Sample.externals)).
Proof.
  apply (@shard_then_get_region Sample.externals (read_rget (Sample.rget 10 None))).
  reflexivity.
Defined.

Lemma sample_hash_size : 0 <= @HASH_REGION_HASH_SIZE Sample.externals < 2 ^ 64.
Proof. simpl. lia. Qed.

Lemma sample_three_shards : 1 <= 3 <= INT_MAX.
Proof. unfold INT_MAX. lia. Qed.

Lemma cpu_sharding_subspaces_contiguous_witness :
  (forall i, (exists r, @cpu_sharding_subspace Sample.externals i 3 = Ok r)
             <-> 0 <= i < 3)
  /\ (forall i, ~ 0 <= i < 3 -> @cpu_sharding_subspace Sample.externals i 3 = Crash)
  /\ (exists first, @cpu_sharding_subspace Sample.externals 0 3 = Ok first
                    /\ beg first = 0)
  /\ (exists last, @cpu_sharding_subspace Sample.externals (3 - 1) 3 = Ok last
                   /\ end_ last = @HASH_REGION_HASH_SIZE Sample.externals)
  /\ (forall i, 0 <= i -> i + 1 < 3 ->
        exists r r', @cpu_sharding_subspace Sample.externals i 3 = Ok r
                     /\ @cpu_sharding_subspace Sample.externals (i + 1) 3 = Ok r'
                     /\ beg r <= end_ r /\ end_ r = beg r').
Proof.
  apply (@cpu_sharding_subspaces_contiguous Sample.externals 3
           sample_hash_size sample_three_shards).
Defined.

Lemma key_erased_by_one_cpu_shard_witness :
  exists i r,
    @cpu_sharding_subspace Sample.externals i 3 = Ok r
    /\ key_should_be_erased r "key" = true
    /\ forall j r', @cpu_sharding_subspace Sample.externals j 3 = Ok r' ->
                    key_should_be_erased r' "key" = true -> j = i.
Proof.
  apply (@key_erased_by_one_cpu_shard Sample.externals 3 "key"
           sample_hash_size sample_three_shards).
  vm_compute. reflexivity.
Defined.

Lemma multistore_distribution_keeps_keys_of_a_largest_piece_witness :
  exists merged selected,
    Sample.counts [("a", 43); ("b", 43); ("c", 43)] = response_distribution merged
    /\ In (response_distribution selected)
          [response_distribution Sample.counts_ab;
           response_distribution Sample.counts_abc]
    /\ map fst (key_counts merged) = map fst (key_counts selected)
    /\ forall d, In (response_distribution d)
                    [response_distribution Sample.counts_ab;
                     response_distribution Sample.counts_abc] ->
                 (List.length (key_counts d)
                  <= List.length (key_counts selected))%nat.
Proof.
  apply (@multistore_distribution_keeps_keys_of_a_largest_piece Sample.externals
           {| max_depth := 2; range := key_range_closed "a" "z" |}
           [response_distribution Sample.counts_ab;
            response_distribution Sample.counts_abc] tt).
  vm_compute. reflexivity.
Defined.

Lemma sample_counts_disjoint :
  Forall (fun d => increasing (key_counts d))
         [Sample.counts_left; Sample.counts_right]
  /\ ForallOrdPairs disjoint_keys [Sample.counts_left; Sample.counts_right].
Proof.
  split.
  - repeat constructor.
  - repeat constructor. intros k [<- | [<- | []]] [H | []]; discriminate.
Qed.

Lemma unshard_distribution_is_union_witness :
  exists merged,
    unshard Sample.distribution
      (map response_distribution [Sample.counts_left; Sample.counts_right]) tt
    = Ok (response_distribution merged)
    /\ increasing (key_counts merged)
    /\ (forall k v, In (k, v) (key_counts merged)
                    <-> exists d, In d [Sample.counts_left; Sample.counts_right]
                                  /\ In (k, v) (key_counts d))
    /\ sum_counts (key_counts merged)
       = total_counts [Sample.counts_left; Sample.counts_right].
Proof.
  apply (@unshard_distribution_is_union Sample.externals
           {| max_depth := 2; range := key_range_closed "a" "z" |}
           [Sample.counts_left; Sample.counts_right] tt).
  - discriminate.
  - exact (proj1 sample_counts_disjoint).
  - exact (proj2 sample_counts_disjoint).
  - intros d0 d1 rest [= <- <- <-]. split; discriminate.
Defined.

Lemma chunk_shard_keeps_recency_witness :
  get_btree_repli_timestamp Sample.timestamp Sample.invalid_timestamp
    (chunk_delete_range Sample.timestamp
       {| dr_range := {| beg := 4; end_ := 8;
                         inner := {| kr_left := "m";
                                     kr_right := right_closed "z" |} |} |})
  = get_btree_repli_timestamp Sample.timestamp Sample.invalid_timestamp
      Sample.delete_a_to_z
  /\ chunk_delete_range Sample.timestamp
       {| dr_range := {| beg := 4; end_ := 8;
                         inner := {| kr_left := "m";
                                     kr_right := right_closed "z" |} |} |}
     = chunk_delete_range Sample.timestamp
         {| dr_range := Sample.intersection
                          {| beg := 0; end_ := 8;
                             inner := key_range_closed "a" "z" |}
                          Sample.shard_m_on |}
  /\ chunk_get_region Sample.timestamp
       (chunk_delete_range Sample.timestamp
          {| dr_range := {| beg := 4; end_ := 8;
                            inner := {| kr_left := "m";
                                        kr_right := right_closed "z" |} |} |})
     = Sample.intersection
         {| beg := 0; end_ := 8; inner := key_range_closed "a" "z" |}
         Sample.shard_m_on
  /\ Sample.is_empty
       (chunk_get_region Sample.timestamp
          (chunk_delete_range Sample.timestamp
             {| dr_range := {| beg := 4; end_ := 8;
                               inner := {| kr_left := "m";
                                           kr_right := right_closed "z" |} |} |}))
     = false.
Proof.
  apply (@chunk_shard_keeps_recency Sample.externals Sample.timestamp
           Sample.invalid_timestamp Sample.intersection Sample.is_empty
           Sample.delete_a_to_z _ Sample.shard_m_on).
  reflexivity.
Defined.

Lemma sample_less_order :
  (forall a, Sample.less a a = false)
  /\ (forall a b c, Sample.less a b = true -> Sample.less b c = true ->
                    Sample.less a c = true)
  /\ (forall a b, Sample.less a b = false -> Sample.less b a = false -> a = b).
Proof.
  split; [|split].
  - intros [x|]; simpl; [apply Z.ltb_irrefl|reflexivity].
  - intros [x|] [y|] [w|]; simpl; try discriminate; try reflexivity.
    rewrite !Z.ltb_lt. lia.
  - intros [x|] [y|]; simpl; try discriminate; try reflexivity.
    rewrite !Z.ltb_ge. intros H1 H2. f_equal. lia.
Qed.

Lemma sample_groups_hold_numbers :
  Forall (@holds_groups Sample.externals) [Sample.groups_a; Sample.groups_b]
  /\ Forall (fun rr => Forall (fun j => Sample.is_number (snd j)) (groups_of rr))
            [Sample.groups_a; Sample.groups_b].
Proof.
  split; repeat constructor; try (eexists; reflexivity); discriminate.
Qed.

Lemma unshard_gmr_folds_each_group_witness :
  exists response merged,
    unshard (read_rget (Sample.rget 1 (Some (terminal_gmr Sample.sum_gmr))))
      (map response_rget [Sample.groups_a; Sample.groups_b]) tt
    = Ok (response_rget response)
    /\ multistore_unshard
         (read_rget (Sample.rget 1 (Some (terminal_gmr Sample.sum_gmr))))
         (map response_rget [Sample.groups_a; Sample.groups_b]) tt
       = Ok (response_rget response)
    /\ result response = result_groups merged
    /\ groups_sorted merged
    /\ forall g, groups_find g merged
                 = fold_left (reduce_group Sample.plus (Some 0))
                     (values_of g [Sample.groups_a; Sample.groups_b]) None.
Proof.
  destruct sample_less_order as (_ & H2 & H3).
  apply (@unshard_gmr_folds_each_group Sample.externals H2 H3
           Sample.sum_gmr Sample.plus (Some 0) Sample.is_number
           (fun sc => eq_refl)).
  - discriminate.
  - exact sample_sum_body.
  - reflexivity.
  - exact (proj1 sample_groups_hold_numbers).
  - exact (proj2 sample_groups_hold_numbers).
Defined.
